(** * Stellar-Batch-Pay: the batch pipeline, embedded and verified

    A shallow embedding of [lib/stellar/batcher.ts], [lib/stellar/parser.ts]
    and [lib/stellar/stellar-service.ts]. The validator ([validator.ts]) and
    the Stellar SDK are not among the sources: the service is a section over
    any validator and any ledger client, and is run on a scripted ledger in
    the examples.

    Conventions.
    - A JS string is a [string]: a sequence of 8-bit code units (the
      Latin-1 range of the UTF-16 code units of the source).
    - A JS integer [number] (a batch bound, an index) is a [Z]; an array
      length is a [nat]; a [bigint] is a [Z].
    - A JS floating-point [number] is a [spec_float] at precision 53 and
      maximal exponent 1024 (IEEE-754 binary64, round to nearest even).
    - A [Map<string, number>] that is only read back as a mapping is a
      [gmap string nat].
    - [JSON.parse] is the engine's: [parseJSON] is a section over it, on
      the values it can return. *)

From Stdlib Require Import ZArith List String Ascii Lia SpecFloat DecimalString.
From stdpp Require Import gmap strings list fin_maps.
Import ListNotations.

Local Open Scope string_scope.
Local Open Scope list_scope.
Local Open Scope Z_scope.

(** ** Data model ([types.ts], as used by the sources) *)

Record PaymentInstruction := {
  address : string;
  amount : string;
  asset : string;
}.


(** ** JavaScript built-ins used by the sources *)

Module JS.

(** A thrown value: an [Error] object with its message, or anything else
    (the sources test [error instanceof Error]). *)
Inductive Thrown :=
  | Error (message : string)
  | NonError.

Inductive Result (A : Type) :=
  | Ok (value : A)
  | Throw (e : Thrown).
Arguments Ok {A} value.
Arguments Throw {A} e.

(** [WhiteSpace] and [LineTerminator] code units below 256: TAB, LF, VT, FF,
    CR, SP and NBSP. *)
Definition isWhiteSpace (c : ascii) : bool :=
  let n := nat_of_ascii c in
  existsb (Nat.eqb n) [9; 10; 11; 12; 13; 32; 160]%nat.

Fixpoint trimStart (s : string) : string :=
  match s with
  | EmptyString => EmptyString
  | String c rest => if isWhiteSpace c then trimStart rest else s
  end.

Fixpoint trimEnd (s : string) : string :=
  match s with
  | EmptyString => EmptyString
  | String c rest =>
      match trimEnd rest with
      | EmptyString => if isWhiteSpace c then EmptyString else String c EmptyString
      | kept => String c kept
      end
  end.

(** [String.prototype.trim] *)
Definition trim (s : string) : string := trimStart (trimEnd s).

(** [String.prototype.split] with a one-character separator: never an empty
    array, and the empty string gives one empty field. *)
Fixpoint split (sep : ascii) (s : string) : list string :=
  match s with
  | EmptyString => [EmptyString]
  | String c rest =>
      if Ascii.eqb c sep then EmptyString :: split sep rest
      else match split sep rest with
           | field :: fields => String c field :: fields
           | [] => [String c EmptyString]
           end
  end.

(** [String.prototype.toLowerCase] on code units below 256. *)
Definition lowerChar (c : ascii) : ascii :=
  let n := nat_of_ascii c in
  if ((65 <=? n) && (n <=? 90))%nat
     || ((192 <=? n) && (n <=? 222) && negb (n =? 215))%nat
  then ascii_of_nat (n + 32) else c.

Fixpoint toLowerCase (s : string) : string :=
  match s with
  | EmptyString => EmptyString
  | String c rest => String (lowerChar c) (toLowerCase rest)
  end.

(** [Array.prototype.indexOf] on an array of strings: the first position
    that is [===] to the key, or -1. *)
Fixpoint indexOfFrom (key : string) (l : list string) (i : Z) : Z :=
  match l with
  | [] => -1
  | x :: rest => if String.eqb x key then i else indexOfFrom key rest (i + 1)
  end.

Definition indexOf (l : list string) (key : string) : Z := indexOfFrom key l 0.

(** [Array.prototype.join] *)
Definition join (sep : string) (l : list string) : string := String.concat sep l.

(** The decimal text of an integer, as a template literal prints it. *)
Definition showZ (z : Z) : string := NilZero.string_of_int (Z.to_int z).

(** Every code unit of the string satisfies [p]. *)
Fixpoint allChars (p : ascii -> bool) (s : string) : bool :=
  match s with
  | EmptyString => true
  | String c rest => p c && allChars p rest
  end.

(** [a || b] on strings: the empty string is falsy. *)
Definition orElse (a b : string) : string :=
  match a with EmptyString => b | _ => a end.

(** [${x}] for a value that may be [undefined]. *)
Definition showOpt (o : option string) : string :=
  match o with Some s => s | None => "undefined" end.

End JS.

(** ** IEEE-754 doubles: [parseFloat], [+] and [Number.prototype.toString] *)

Module Num.

Definition prec : Z := 53.
Definition emax : Z := 1024.

Definition zero : spec_float := S754_zero false.

(** The [+] of two numbers. *)
Definition add (x y : spec_float) : spec_float := SFadd prec emax x y.

(** The double nearest to [digits * 10^e10] (ties to even), with the sign
    [neg]: what reading a decimal literal yields. *)
Definition ofDecimal (neg : bool) (digits : Z) (e10 : Z) : spec_float :=
  match digits with
  | Zpos p =>
      if 0 <=? e10 then
        binary_normalize prec emax
          (if neg then Zneg (p * Z.to_pos (10 ^ e10))
           else Zpos (p * Z.to_pos (10 ^ e10))) 0 false
      else
        SFdiv prec emax (S754_finite neg p 0)
                        (S754_finite false (Z.to_pos (10 ^ (- e10))) 0)
  | _ => S754_zero neg
  end.

Definition isDigit (c : ascii) : bool :=
  let n := nat_of_ascii c in ((48 <=? n) && (n <=? 57))%nat.

(** The longest prefix of decimal digits, and the rest. *)
Fixpoint spanDigits (s : string) : string * string :=
  match s with
  | String c rest =>
      if isDigit c then
        let '(ds, tl) := spanDigits rest in (String c ds, tl)
      else (EmptyString, s)
  | EmptyString => (EmptyString, EmptyString)
  end.

Fixpoint digitsValue (s : string) (acc : Z) : Z :=
  match s with
  | EmptyString => acc
  | String c rest => digitsValue rest (10 * acc + (Z.of_nat (nat_of_ascii c) - 48))
  end.

Definition takeSign (s : string) : bool * string :=
  match s with
  | String "-" rest => (true, rest)
  | String "+" rest => (false, rest)
  | _ => (false, s)
  end.

(** The [ExponentPart] at the head of [s], 0 when there is none. *)
Definition exponentPart (s : string) : Z :=
  match s with
  | String c rest =>
      if Ascii.eqb c "e" || Ascii.eqb c "E" then
        let '(eneg, rest1) := takeSign rest in
        let '(ds, _) := spanDigits rest1 in
        match ds with
        | EmptyString => 0
        | _ => if eneg then - digitsValue ds 0 else digitsValue ds 0
        end
      else 0
  | EmptyString => 0
  end.

(** [parseFloat]: skip leading white space, read the longest prefix that is
    a [StrDecimalLiteral], [NaN] when there is none. *)
Definition parseFloat (input : string) : spec_float :=
  let '(neg, s) := takeSign (JS.trimStart input) in
  if String.prefix "Infinity" s then S754_infinity neg
  else
    let '(ip, r1) := spanDigits s in
    let '(fp, r2) :=
      match r1 with
      | String "." rest => spanDigits rest
      | _ => (EmptyString, r1)
      end in
    match ip, fp with
    | EmptyString, EmptyString => S754_nan
    | _, _ =>
        ofDecimal neg (digitsValue (ip +:+ fp) 0)
                  (exponentPart r2 - Z.of_nat (String.length fp))
    end.

(** Structural equality of doubles (distinguishes the two zeros). *)
Definition same (x y : spec_float) : bool :=
  match x, y with
  | S754_zero a, S754_zero b => Bool.eqb a b
  | S754_infinity a, S754_infinity b => Bool.eqb a b
  | S754_nan, S754_nan => true
  | S754_finite a m e, S754_finite b m' e' =>
      Bool.eqb a b && Pos.eqb m m' && Z.eqb e e'
  | _, _ => false
  end.

(** [nu / de < 10^n] *)
Definition belowPow10 (nu de n : Z) : bool :=
  if 0 <=? n then nu <? de * 10 ^ n else nu * 10 ^ (- n) <? de.

Fixpoint decimalExponentFrom (fuel : nat) (nu de n : Z) : Z :=
  match fuel with
  | O => n
  | S fuel' =>
      if belowPow10 nu de n then n else decimalExponentFrom fuel' nu de (n + 1)
  end.

(** The [n] with [10^(n-1) <= nu/de < 10^n], for a positive double. *)
Definition decimalExponent (nu de : Z) : Z :=
  decimalExponentFrom 640 nu de (-324).

(** The [k]-digit integer [s] such that [s * 10^(n0-k)] reads back as [x],
    closest to [x] (the even one on a tie), when there is one. *)
Definition digitsAt (x : spec_float) (nu de n0 k : Z) : option Z :=
  let p := n0 - k in
  let lo := if 0 <=? p then nu / (de * 10 ^ p) else (nu * 10 ^ (- p)) / de in
  let hi := lo + 1 in
  let lo_ok := same (ofDecimal false lo p) x in
  let hi_ok := same (ofDecimal false hi p) x in
  let cmp := if 0 <=? p then (2 * nu) ?= ((2 * lo + 1) * 10 ^ p * de)
             else (2 * nu * 10 ^ (- p)) ?= ((2 * lo + 1) * de) in
  match lo_ok, hi_ok with
  | true, true =>
      match cmp with
      | Lt => Some lo
      | Gt => Some hi
      | Eq => Some (if Z.even lo then lo else hi)
      end
  | true, false => Some lo
  | false, true => Some hi
  | false, false => None
  end.

Fixpoint shortestFrom (fuel : nat) (x : spec_float) (nu de n0 k : Z) : Z * Z :=
  match fuel with
  | O => (nu / de, k)
  | S fuel' =>
      match digitsAt x nu de n0 k with
      | Some s => (s, k)
      | None => shortestFrom fuel' x nu de n0 (k + 1)
      end
  end.

Fixpoint zeros (n : nat) : string :=
  match n with O => EmptyString | S n' => String "0" (zeros n') end.

Definition showDigits (s : Z) : string := NilEmpty.string_of_uint (N.to_uint (Z.to_N s)).

(** [Number::toString] of a positive finite double [m * 2^e]. *)
Definition showPositive (m : positive) (e : Z) : string :=
  let nu := if 0 <=? e then Zpos m * 2 ^ e else Zpos m in
  let de := if 0 <=? e then 1 else 2 ^ (- e) in
  let n0 := decimalExponent nu de in
  let '(s0, k0) := shortestFrom 17 (S754_finite false m e) nu de n0 1 in
  let '(s, k, n) := if s0 =? 10 ^ k0 then (1, 1, n0 + 1) else (s0, k0, n0) in
  let ds := showDigits s in
  if (k <=? n) && (n <=? 21) then ds +:+ zeros (Z.to_nat (n - k))
  else if (0 <? n) && (n <=? 21) then
    substring 0 (Z.to_nat n) ds +:+ "." +:+ substring (Z.to_nat n) (Z.to_nat (k - n)) ds
  else if (-6 <? n) && (n <=? 0) then
    "0." +:+ zeros (Z.to_nat (- n)) +:+ ds
  else
    let ex := n - 1 in
    let tail := "e" +:+ (if ex <? 0 then "-" else "+") +:+ showDigits (Z.abs ex) in
    if k =? 1 then ds +:+ tail
    else substring 0 1 ds +:+ "." +:+ substring 1 (Z.to_nat (k - 1)) ds +:+ tail.

(** [Number.prototype.toString] (radix 10). *)
Definition toString (x : spec_float) : string :=
  match x with
  | S754_nan => "NaN"
  | S754_zero _ => "0"
  | S754_infinity neg => if neg then "-Infinity" else "Infinity"
  | S754_finite neg m e =>
      if neg then "-" +:+ showPositive m e else showPositive m e
  end.

(** The value of a finite double counted in units of [2^-1074], the least
    positive double: an integer for every double of binary64. *)
Definition units (x : spec_float) : Z :=
  match x with
  | S754_finite s m e => (if s then -1 else 1) * (Zpos m * 2 ^ (e + 1074))
  | _ => 0
  end.

(** A non-negative finite double in its canonical form: [+0], or a positive
    mantissa and exponent within the bounds of binary64. *)
Definition nonnegFinite (x : spec_float) : bool :=
  match x with
  | S754_zero false => true
  | S754_finite false m e => bounded prec emax m e
  | _ => false
  end.

(** [m * 2^n] as a mantissa. *)
Definition shiftBy (m : positive) (n : nat) : positive := Nat.iter n xO m.

End Num.

Module Batcher.

(** *** [createBatches] *)

Record Batch := {
  transactionIndex : Z;
  payments : list PaymentInstruction;
}.

(** The three mutable locals of [createBatches]. *)
Record LoopState := {
  batches : list Batch;
  currentBatch : list PaymentInstruction;
  nextIndex : Z;
}.

Definition initial : LoopState :=
  {| batches := []; currentBatch := []; nextIndex := 0 |}.

(** One iteration of [for (const instruction of instructions)]: push, then
    close the batch when [currentBatch.length >= maxOperationsPerTransaction]. *)
Definition step (maxOperationsPerTransaction : Z)
    (st : LoopState) (instruction : PaymentInstruction) : LoopState :=
  let pushed := currentBatch st ++ [instruction] in
  if Z.of_nat (length pushed) >=? maxOperationsPerTransaction then
    {| batches := batches st ++
         [ {| transactionIndex := nextIndex st; payments := pushed |} ];
       currentBatch := [];
       nextIndex := nextIndex st + 1 |}
  else
    {| batches := batches st; currentBatch := pushed; nextIndex := nextIndex st |}.

Definition createBatches (instructions : list PaymentInstruction)
    (maxOperationsPerTransaction : Z) : list Batch :=
  let st := fold_left (step maxOperationsPerTransaction) instructions initial in
  if (0 <? length (currentBatch st))%nat then
    batches st ++
      [ {| transactionIndex := nextIndex st; payments := currentBatch st |} ]
  else batches st.

(** [ceil(n/m)] for a positive [m]. *)
Definition ceil_div (n m : Z) : Z := (n + m - 1) / m.

(** The partition property of [createBatches] at bound [m]: the number of
    batches, the size bound, the concatenation and the indices. *)
Definition partition_spec (m : Z) (instructions : list PaymentInstruction) : Prop :=
  let bs := createBatches instructions m in
  Z.of_nat (length bs) = ceil_div (Z.of_nat (length instructions)) m
  /\ Forall (fun b => Z.of_nat (length (payments b)) <= m) bs
  /\ concat (map payments bs) = instructions
  /\ map transactionIndex bs = map Z.of_nat (seq 0 (length bs)).

(** Loop invariant for a bound [m >= 1], after the prefix [done] was walked. *)
Record inv (m : Z) (done : list PaymentInstruction) (st : LoopState) : Prop := {
  inv_index : nextIndex st = Z.of_nat (length (batches st));
  inv_indices :
    map transactionIndex (batches st) = map Z.of_nat (seq 0 (length (batches st)));
  inv_full : Forall (fun b => Z.of_nat (length (payments b)) = m) (batches st);
  inv_open : Z.of_nat (length (currentBatch st)) < m;
  inv_concat : concat (map payments (batches st)) ++ currentBatch st = done;
}.

(** Loop invariant for a bound [m <= 0]: nothing stays open. *)
Record inv1 (done : list PaymentInstruction) (st : LoopState) : Prop := {
  inv1_index : nextIndex st = Z.of_nat (length (batches st));
  inv1_single : map payments (batches st) = map (fun x => [x]) done;
  inv1_open : currentBatch st = [];
  inv1_indices :
    map transactionIndex (batches st) = map Z.of_nat (seq 0 (length (batches st)));
}.


(** *** [parseAsset] *)

(** The [issuer] property as it is at run time: [null], a string, or
    [undefined] when the destructured array has no second element. *)
Inductive Issuer :=
  | issuer_null
  | issuer_undefined
  | issuer_string (s : string).

Record Asset := {
  code : string;
  issuer : Issuer;
}.

(** [JS.split] never returns the empty array, so the last branch is dead. *)
Definition parseAsset (assetString : string) : Asset :=
  if String.eqb assetString "XLM" then {| code := "XLM"; issuer := issuer_null |}
  else
    match JS.split ":" assetString with
    | c :: i :: _ => {| code := c; issuer := issuer_string i |}
    | [c] => {| code := c; issuer := issuer_undefined |}
    | [] => {| code := EmptyString; issuer := issuer_undefined |}
    end.

(** *** [getBatchSummary] *)

Record Summary := {
  recipientCount : nat;
  totalAmount : string;
  assetBreakdown : gmap string nat;
}.

(** The two mutable locals of [getBatchSummary]. *)
Record Tally := {
  total : spec_float;
  assetCount : gmap string nat;
}.

Definition tally (t : Tally) (instruction : PaymentInstruction) : Tally :=
  {| total := Num.add (total t) (Num.parseFloat (amount instruction));
     assetCount :=
       <[ asset instruction :=
            (default 0%nat (assetCount t !! asset instruction) + 1)%nat ]>
         (assetCount t) |}.

Definition getBatchSummary (instructions : list PaymentInstruction) : Summary :=
  let t := fold_left tally instructions {| total := Num.zero; assetCount := ∅ |} in
  {| recipientCount := length instructions;
     totalAmount := Num.toString (total t);
     assetBreakdown := assetCount t |}.

End Batcher.

(** ** [parser.ts] *)

Module Parser.
Import JS.

Definition newline : ascii := ascii_of_nat 10.

Definition tooFewLines : string :=
  "CSV must have at least a header row and one data row".
Definition quoted (s : string) : string :=
  String (ascii_of_nat 34) s +:+ String (ascii_of_nat 34) EmptyString.
Definition missingColumns : string :=
  "CSV must have " +:+ quoted "address" +:+ ", " +:+ quoted "amount"
  +:+ ", and " +:+ quoted "asset" +:+ " columns".
Definition insufficientColumns (row : Z) : string :=
  "Row " +:+ showZ row +:+ " has insufficient columns".
Definition noInstructions : string :=
  "No valid payment instructions found in CSV".

(** The [for (let i = 1; i < lines.length; i++)] loop over the data rows
    [lines[i], lines[i+1], ...]. The column check makes every [parts[...]]
    read in range. *)
Fixpoint parseRows (addressIndex amountIndex assetIndex : Z)
    (rows : list string) (i : Z) (instructions : list PaymentInstruction)
    : Result (list PaymentInstruction) :=
  match rows with
  | [] => Ok instructions
  | row :: rest =>
      let line := trim row in
      if (String.length line =? 0)%nat then
        parseRows addressIndex amountIndex assetIndex rest (i + 1) instructions
      else
        let parts := map trim (split "," line) in
        if Z.of_nat (length parts)
             <? Z.max (Z.max addressIndex amountIndex) assetIndex + 1
        then Throw (Error (insufficientColumns (i + 1)))
        else
          parseRows addressIndex amountIndex assetIndex rest (i + 1)
            (instructions ++
               [ {| address := nth (Z.to_nat addressIndex) parts EmptyString;
                    amount := nth (Z.to_nat amountIndex) parts EmptyString;
                    asset := nth (Z.to_nat assetIndex) parts EmptyString |} ])
  end.

Definition parseCSV (content : string) : Result (list PaymentInstruction) :=
  let lines := split newline (trim content) in
  if (length lines <? 2)%nat then Throw (Error tooFewLines)
  else
    let headers :=
      map (fun h => toLowerCase (trim h)) (split "," (nth 0 lines EmptyString)) in
    let addressIndex := indexOf headers "address" in
    let amountIndex := indexOf headers "amount" in
    let assetIndex := indexOf headers "asset" in
    if (addressIndex =? -1) || (amountIndex =? -1) || (assetIndex =? -1)
    then Throw (Error missingColumns)
    else
      match parseRows addressIndex amountIndex assetIndex (tl lines) 1 [] with
      | Throw e => Throw e
      | Ok instructions =>
          if (length instructions =? 0)%nat then Throw (Error noInstructions)
          else Ok instructions
      end.

End Parser.

(** ** [validator.ts] *)

Module Validator.

Record ValidationResult := {
  valid : bool;
  error : option string;
}.

Definition isBase32 (c : ascii) : bool :=
  let n := nat_of_ascii c in
  (((65 <=? n) && (n <=? 90)) || ((50 <=? n) && (n <=? 55)))%nat.

(** Modelled from the spec: the account-identifier syntax that
    [validator.ts] (not among the sources) checks. The address format of the
    ledger is 56 base-32 characters, the first one [G]. *)
Definition isAccountId (s : string) : bool :=
  (String.length s =? 56)%nat && String.prefix "G" s && JS.allChars isBase32 s.

(** Modelled from the spec: the asset syntax checked by [validator.ts]: the
    native token, or [code:issuer] with a non-empty code and an issuer that
    is an account identifier. *)
Definition isAssetString (s : string) : bool :=
  String.eqb s "XLM"
  || match JS.split ":" s with
     | [c; i] => negb (String.eqb c EmptyString) && isAccountId i
     | _ => false
     end.

(** Modelled from the spec: [validatePaymentInstruction] of [validator.ts],
    which is not among the sources: the recipient is an account identifier,
    the amount parses as a strictly positive decimal, the asset is the
    native token or [code:issuer]. The service below is verified for every
    validator; this one instantiates it. *)
Definition validatePaymentInstruction (instruction : PaymentInstruction)
    : ValidationResult :=
  if negb (isAccountId (address instruction)) then
    {| valid := false; error := Some "Invalid recipient address" |}
  else if negb (SFltb Num.zero (Num.parseFloat (amount instruction))) then
    {| valid := false; error := Some "Invalid amount: must be a positive number" |}
  else if negb (isAssetString (asset instruction)) then
    {| valid := false; error := Some "Invalid asset format" |}
  else {| valid := true; error := None |}.

End Validator.

(** ** [stellar-service.ts] *)

Module Service.
Import JS.

Inductive Network := testnet | mainnet.

Inductive Status := success | failed.

Module PaymentResult.
Record t := {
  recipient : string;
  amount : string;
  asset : string;
  status : Status;
  transactionHash : option string;
  error : option string;
}.
End PaymentResult.

Module Summary.
Record t := {
  successful : nat;
  failed : nat;
}.
End Summary.

Record BatchResult := {
  totalRecipients : nat;
  totalAmount : string;
  totalTransactions : nat;
  network : Network;
  timestamp : string;
  results : list PaymentResult.t;
  summary : Summary.t;
}.

(** *** The SDK objects the service builds *)

Inductive StellarAsset :=
  | native
  | issued (assetCode : string) (assetIssuer : option string).

Record PaymentOp := {
  destination : string;
  opAsset : StellarAsset;
  opAmount : string;
}.

Record Transaction := {
  source : string;
  sequence : string;
  fee : string;
  passphrase : Network;
  operations : list PaymentOp;
  timeout : Z;
  signatures : list string;
}.

(** What [server.submitTransaction] resolves to: [successful], [hash] and
    [result_codes?.operations]. *)
Record Response := {
  successful : bool;
  hash : string;
  operationCodes : option (list string);
}.

(** The ledger client: the Horizon server, the SDK and the clock, over a
    state [L] the service cannot see.
    - [loadAccount l pk]: [server.loadAccount(pk)], then the sequence number
      of the account read as a [bigint];
    - [submit l tx]: [server.submitTransaction(tx)];
    - [builderThrows pk seq]: the exception [new TransactionBuilder] raises
      for this source account, if any;
    - [operationThrows op]: the exception [new StellarAsset],
      [Operation.payment] or [addOperation] raises for this payment, if any;
    - [buildThrows tx]: the exception [setTimeout] or [build] raises, if any;
    - [signThrows tx]: the exception [transaction.sign] raises, if any;
    - [clock l]: [new Date().toISOString()]. *)
Class LedgerClient (L : Type) := {
  loadAccount : L -> string -> Result Z * L;
  submit : L -> Transaction -> Result Response * L;
  builderThrows : string -> string -> option Thrown;
  operationThrows : PaymentOp -> option Thrown;
  buildThrows : Transaction -> option Thrown;
  signThrows : Transaction -> option Thrown;
  clock : L -> string;
}.

(** The fields of a constructed [StellarService]. *)
Record Config := {
  publicKey : string;
  configNetwork : Network;
  maxOperationsPerTransaction : Z;
}.

(** The interactions with the ledger, in the order they happen. *)
Inductive Event :=
  | LoadedAccount (account : string)
  | Submitted (tx : Transaction) (outcome : Result Response).

Record World (L : Type) := {
  ledger : L;
  trace : list Event;
}.
Arguments ledger {L} w.
Arguments trace {L} w.

(** *** The monad of the service: ledger state, event trace, exceptions *)

Definition M (L A : Type) : Type := World L -> Result A * World L.

Definition ret {L A} (a : A) : M L A := fun w => (Ok a, w).

Definition bind {L A B} (m : M L A) (k : A -> M L B) : M L B :=
  fun w =>
    match m w with
    | (Ok a, w') => k a w'
    | (Throw e, w') => (Throw e, w')
    end.

Definition lift {L A} (r : Result A) : M L A := fun w => (r, w).

(** A call that changes nothing and may throw. *)
Definition check {L} (thrown : option Thrown) : M L unit :=
  fun w =>
    match thrown with
    | Some e => (Throw e, w)
    | None => (Ok tt, w)
    end.

(** [try { m } catch (error) { handler }]: what [m] did to the ledger before
    it threw stays done. *)
Definition tryCatch {L A} (m : M L A) (handler : Thrown -> M L A) : M L A :=
  fun w =>
    match m w with
    | (Ok a, w') => (Ok a, w')
    | (Throw e, w') => handler e w'
    end.

(** [for (const x of l) { st = body st x }] *)
Fixpoint forOf {L S B} (body : S -> B -> M L S) (l : list B) (st : S) : M L S :=
  match l with
  | [] => ret st
  | x :: rest => bind (body st x) (forOf body rest)
  end.

Declare Scope service_scope.
Delimit Scope service_scope with service.
Notation "x <- m ;; k" := (bind m (fun x => k))
  (at level 100, m at next level, right associativity) : service_scope.
Local Open Scope service_scope.

(** [error instanceof Error ? error.message : 'Unknown error'] *)
Definition messageOf (e : Thrown) : string :=
  match e with
  | Error message => message
  | NonError => "Unknown error"
  end.

(** The locals of [submitBatch] that the batch loop updates. *)
Record RunState := {
  pushed : list PaymentResult.t;
  sequenceNumber : Z;
  successCount : nat;
  failCount : nat;
}.

Definition successResult (h : string) (instruction : PaymentInstruction)
    : PaymentResult.t :=
  {| PaymentResult.recipient := address instruction;
     PaymentResult.amount := amount instruction;
     PaymentResult.asset := asset instruction;
     PaymentResult.status := success;
     PaymentResult.transactionHash := Some h;
     PaymentResult.error := None |}.

Definition failedResult (msg : string) (instruction : PaymentInstruction)
    : PaymentResult.t :=
  {| PaymentResult.recipient := address instruction;
     PaymentResult.amount := amount instruction;
     PaymentResult.asset := asset instruction;
     PaymentResult.status := failed;
     PaymentResult.transactionHash := None;
     PaymentResult.error := Some msg |}.

(** [results.push({..., status: 'success', ...}); successCount++] *)
Definition pushSuccess (h : string) (st : RunState) (instruction : PaymentInstruction)
    : RunState :=
  {| pushed := pushed st ++ [successResult h instruction];
     sequenceNumber := sequenceNumber st;
     successCount := S (successCount st);
     failCount := failCount st |}.

(** [results.push({..., status: 'failed', ...}); failCount++] *)
Definition pushFailed (msg : string) (st : RunState) (instruction : PaymentInstruction)
    : RunState :=
  {| pushed := pushed st ++ [failedResult msg instruction];
     sequenceNumber := sequenceNumber st;
     successCount := successCount st;
     failCount := S (failCount st) |}.

(** [sequenceNumber += BigInt(1)] *)
Definition bump (st : RunState) : RunState :=
  {| pushed := pushed st;
     sequenceNumber := sequenceNumber st + 1;
     successCount := successCount st;
     failCount := failCount st |}.

(** What [submitTransaction] of the service returns. *)
Module SubmitResult.
Record t := {
  success : bool;
  transactionHash : option string;
  error : option string;
}.
End SubmitResult.

Definition stellarAsset (a : Batcher.Asset) : StellarAsset :=
  match Batcher.issuer a with
  | Batcher.issuer_null => native
  | Batcher.issuer_undefined => issued (Batcher.code a) None
  | Batcher.issuer_string i => issued (Batcher.code a) (Some i)
  end.

Definition sign (pk : string) (tx : Transaction) : Transaction :=
  {| source := source tx; sequence := sequence tx; fee := fee tx;
     passphrase := passphrase tx; operations := operations tx;
     timeout := timeout tx; signatures := signatures tx ++ [pk] |}.

Section Run.

Context {L : Type} `{LedgerClient L}.
Variable validatePaymentInstruction :
  PaymentInstruction -> Validator.ValidationResult.
Variable this : Config.

Definition serverLoadAccount (pk : string) : M L Z :=
  fun w =>
    let '(r, l') := loadAccount (ledger w) pk in
    (r, {| ledger := l'; trace := trace w ++ [LoadedAccount pk] |}).

Definition serverSubmit (tx : Transaction) : M L Response :=
  fun w =>
    let '(r, l') := submit (ledger w) tx in
    (r, {| ledger := l'; trace := trace w ++ [Submitted tx r] |}).

Definition newDate : M L string := fun w => (Ok (clock (ledger w)), w).

(** [createPaymentBatches]: the loop, with the two locals [batches] and
    [currentBatch]; it throws at the first instruction the validator
    rejects. *)
Fixpoint partition (instructions : list PaymentInstruction)
    (batches : list (list PaymentInstruction))
    (currentBatch : list PaymentInstruction)
    : Result (list (list PaymentInstruction) * list PaymentInstruction) :=
  match instructions with
  | [] => Ok (batches, currentBatch)
  | instruction :: rest =>
      let validation := validatePaymentInstruction instruction in
      if negb (Validator.valid validation) then
        Throw (Error ("Invalid payment instruction for " +:+ address instruction
                      +:+ ": " +:+ showOpt (Validator.error validation)))
      else
        let current := currentBatch ++ [instruction] in
        if Z.of_nat (length current) >=? maxOperationsPerTransaction this then
          partition rest (batches ++ [current]) []
        else partition rest batches current
  end.

Definition createPaymentBatches (instructions : list PaymentInstruction)
    : Result (list (list PaymentInstruction)) :=
  match partition instructions [] [] with
  | Throw e => Throw e
  | Ok (batches, currentBatch) =>
      if (0 <? length currentBatch)%nat then Ok (batches ++ [currentBatch])
      else Ok batches
  end.

(** The loop of [buildTransaction] over the payments. *)
Fixpoint addOperations (payments : list PaymentInstruction) (ops : list PaymentOp)
    : Result (list PaymentOp) :=
  match payments with
  | [] => Ok ops
  | payment :: rest =>
      let op := {| destination := address payment;
                   opAsset := stellarAsset (Batcher.parseAsset (asset payment));
                   opAmount := amount payment |} in
      match operationThrows op with
      | Some e => Throw e
      | None => addOperations rest (ops ++ [op])
      end
  end.

Definition buildTransaction (payments : list PaymentInstruction)
    (sequenceNumber : Z) : M L Transaction :=
  _ <- check (builderThrows (publicKey this) (showZ sequenceNumber)) ;;
  ops <- lift (addOperations payments []) ;;
  let transaction :=
    {| source := publicKey this;
       sequence := showZ sequenceNumber;
       fee := "100";
       passphrase := configNetwork this;
       operations := ops;
       timeout := 300;
       signatures := [] |} in
  _ <- check (buildThrows transaction) ;;
  ret transaction.

Definition submitTransaction (transaction : Transaction) : M L SubmitResult.t :=
  tryCatch
    (_ <- check (signThrows transaction) ;;
     response <- serverSubmit (sign (publicKey this) transaction) ;;
     if successful response then
       ret {| SubmitResult.success := true;
              SubmitResult.transactionHash := Some (hash response);
              SubmitResult.error := None |}
     else
       ret {| SubmitResult.success := false;
              SubmitResult.transactionHash := None;
              SubmitResult.error :=
                Some (orElse
                        match operationCodes response with
                        | Some codes => join ", " codes
                        | None => EmptyString
                        end
                        "Transaction failed") |})
    (fun error =>
       ret {| SubmitResult.success := false;
              SubmitResult.transactionHash := None;
              SubmitResult.error := Some (messageOf error) |}).

(** The body of [for (const batch of batches)]. *)
Definition processBatch (st : RunState) (batch : list PaymentInstruction)
    : M L RunState :=
  tryCatch
    (transaction <- buildTransaction batch (sequenceNumber st) ;;
     result <- submitTransaction transaction ;;
     if SubmitResult.success result then
       ret (bump (fold_left
                    (pushSuccess
                       (default EmptyString (SubmitResult.transactionHash result)))
                    batch st))
     else
       ret (fold_left
              (pushFailed
                 (orElse (default EmptyString (SubmitResult.error result))
                         "Unknown error"))
              batch st))
    (fun error => ret (fold_left (pushFailed (messageOf error)) batch st)).

Definition start (loaded : Z) : RunState :=
  {| pushed := []; sequenceNumber := loaded; successCount := 0; failCount := 0 |}.

(** [submitBatch] up to the end of the batch loop. *)
Definition runBatches (instructions : list PaymentInstruction)
    : M L (list (list PaymentInstruction) * RunState) :=
  loaded <- serverLoadAccount (publicKey this) ;;
  batches <- lift (createPaymentBatches instructions) ;;
  st <- forOf processBatch batches (start loaded) ;;
  ret (batches, st).

Definition submitBatch (instructions : list PaymentInstruction) : M L BatchResult :=
  startTime <- newDate ;;
  run <- runBatches instructions ;;
  let '(batches, st) := run in
  let total :=
    fold_left (fun sum inst => Num.add sum (Num.parseFloat (amount inst)))
              instructions Num.zero in
  ret {| totalRecipients := length instructions;
         totalAmount := Num.toString total;
         totalTransactions := length batches;
         network := configNetwork this;
         timestamp := startTime;
         results := pushed st;
         summary := {| Summary.successful := successCount st;
                       Summary.failed := failCount st |} |}.

End Run.

(** The number of submissions the ledger accepted among the events. *)
Definition isAccepted (ev : Event) : bool :=
  match ev with
  | Submitted _ (Ok r) => successful r
  | _ => false
  end.

Definition acceptedIn (evs : list Event) : nat :=
  length (List.filter isAccepted evs).

(** The instruction a result reports on. *)
Definition instructionOf (r : PaymentResult.t) : PaymentInstruction :=
  {| address := PaymentResult.recipient r;
     amount := PaymentResult.amount r;
     asset := PaymentResult.asset r |}.

Definition isSuccess (r : PaymentResult.t) : bool :=
  match PaymentResult.status r with success => true | failed => false end.

Definition successesIn (rs : list PaymentResult.t) : nat :=
  length (List.filter isSuccess rs).

(** What the batch loop did between two of its states: it reported on the
    instructions [paid], in order, and the ledger saw the events [evs]. *)
Record advanced (paid : list PaymentInstruction) (evs : list Event)
    (st st' : RunState) : Prop := {
  adv_sequence :
    sequenceNumber st' = sequenceNumber st + Z.of_nat (acceptedIn evs);
  adv_results :
    exists news,
      pushed st' = pushed st ++ news
      /\ map instructionOf news = paid
      /\ successCount st' = (successCount st + successesIn news)%nat
      /\ (failCount st' + successesIn news = failCount st + length news)%nat;
}.

End Service.

(** ** A scripted ledger and sample data, for the examples *)

Module Mock.
Import JS Service.

(** A Horizon server that knows one account and plays a script: one entry
    per coming submission, [true] for a transaction it accepts. With the
    script used up, the transport fails. *)
Record Ledger := {
  accountSequence : Z;
  script : list bool;
}.

#[export] Instance client : LedgerClient Ledger := {|
  loadAccount l pk := (Ok (accountSequence l), l);
  submit l tx :=
    match script l with
    | true :: rest =>
        (Ok {| successful := true; hash := "hash-" +:+ sequence tx;
               operationCodes := None |},
         {| accountSequence := accountSequence l + 1; script := rest |})
    | false :: rest =>
        (Ok {| successful := false; hash := EmptyString;
               operationCodes := Some ["op_underfunded"] |},
         {| accountSequence := accountSequence l; script := rest |})
    | [] => (Throw (Error "Network Error"), l)
    end;
  builderThrows pk seq := None;
  operationThrows op := None;
  buildThrows tx := None;
  signThrows tx := None;
  clock l := "2024-01-01T00:00:00.000Z";
|}.

Definition world (seq : Z) (outcomes : list bool) : World Ledger :=
  {| ledger := {| accountSequence := seq; script := outcomes |}; trace := [] |}.

Definition alice : string :=
  "GAAAAAAAAAAAAAAAAAAAAAAAAAAAAAAAAAAAAAAAAAAAAAAAAAAAAAAA".
Definition bob : string :=
  "GBBBBBBBBBBBBBBBBBBBBBBBBBBBBBBBBBBBBBBBBBBBBBBBBBBBBBBB".
Definition signer : string :=
  "GCCCCCCCCCCCCCCCCCCCCCCCCCCCCCCCCCCCCCCCCCCCCCCCCCCCCCCC".

Definition pay (to amt : string) : PaymentInstruction :=
  {| address := to; amount := amt; asset := "XLM" |}.

Definition service (m : Z) : Config :=
  {| publicKey := signer; configNetwork := testnet;
     maxOperationsPerTransaction := m |}.

End Mock.

(** ** Vocabulary of the statements *)

Module Spec.

(** How many instructions of the list pay in the asset [k]. *)
Definition occurrences (k : string) (l : list PaymentInstruction) : nat :=
  length (List.filter (fun i => String.eqb (asset i) k) l).

(** The amounts read by [parseFloat] and added from left to right in
    binary64, starting from [+0]. *)
Definition floatSum (amounts : list string) : spec_float :=
  fold_left Num.add (map Num.parseFloat amounts) Num.zero.

Definition sumZ (l : list Z) : Z := fold_right Z.add 0 l.

(** The sums of the non-empty prefixes of [l], on top of [acc]. *)
Fixpoint runningSums (acc : Z) (l : list Z) : list Z :=
  match l with
  | [] => []
  | x :: rest => (acc + x) :: runningSums (acc + x) rest
  end.

(** Some non-negative finite double has exactly the value [u] (in units of
    [2^-1074]). *)
Definition representable (u : Z) : Prop :=
  exists z, Num.nonnegFinite z = true /\ Num.units z = u.

Fixpoint contains (c : ascii) (s : string) : bool :=
  match s with
  | EmptyString => false
  | String c' rest => Ascii.eqb c' c || contains c rest
  end.

(** The asset invariant of the data model: the code [XLM] comes with no
    issuer ([null]), any other code with an issuer. *)
Definition assetInvariant (a : Batcher.Asset) : Prop :=
  (Batcher.code a = "XLM" -> Batcher.issuer a = Batcher.issuer_null)
  /\ (Batcher.code a <> "XLM" -> exists i, Batcher.issuer a = Batcher.issuer_string i).

End Spec.

(** ** More vocabulary: batches, breakdowns, CSV cells, transactions *)

Module Notions.

(** The batch with its index moved up by [k]. *)
Definition reindex (k : Z) (b : Batcher.Batch) : Batcher.Batch :=
  {| Batcher.transactionIndex := Batcher.transactionIndex b + k;
     Batcher.payments := Batcher.payments b |}.

(** The number of payments of each batch, in order. *)
Definition sizes (bs : list Batcher.Batch) : list Z :=
  map (fun b => Z.of_nat (length (Batcher.payments b))) bs.

(** The sum of the counts of a breakdown. *)
Definition countTotal (breakdown : gmap string nat) : nat :=
  map_fold (fun _ n acc => (n + acc)%nat) 0%nat breakdown.

(** The cells of a data line, as [parseCSV] reads them. *)
Definition cells (row : string) : list string :=
  map JS.trim (JS.split "," (JS.trim row)).

(** A line [parseCSV] skips. *)
Definition isBlank (row : string) : bool :=
  (String.length (JS.trim row) =? 0)%nat.

(** The position of the column [name] in a header line, or -1. *)
Definition column (header name : string) : Z :=
  JS.indexOf (map (fun h => JS.toLowerCase (JS.trim h)) (JS.split "," header)) name.

(** The number of cells a data line needs under this header. *)
Definition needed (header : string) : Z :=
  Z.max (Z.max (column header "address") (column header "amount"))
        (column header "asset") + 1.

Definition cell (k : Z) (row : string) : string :=
  nth (Z.to_nat k) (cells row) EmptyString.

(** The instruction a data line stands for under this header. *)
Definition instructionAt (header row : string) : PaymentInstruction :=
  {| address := cell (column header "address") row;
     amount := cell (column header "amount") row;
     asset := cell (column header "asset") row |}.

(** A field a CSV cell can carry: trimmed, without comma or line feed. *)
Definition clean (s : string) : Prop :=
  JS.trim s = s
  /\ Spec.contains "," s = false
  /\ Spec.contains Parser.newline s = false.

Definition lineFeed : string := String Parser.newline EmptyString.

(** The plain CSV text of a list of instructions. *)
Definition csvLine (i : PaymentInstruction) : string :=
  address i +:+ "," +:+ amount i +:+ "," +:+ asset i.

Definition csvText (l : list PaymentInstruction) : string :=
  "address,amount,asset" +:+ lineFeed +:+ JS.join lineFeed (map csvLine l).

(** The payment operation [buildTransaction] adds for an instruction. *)
Definition operationOf (p : PaymentInstruction) : Service.PaymentOp :=
  {| Service.destination := address p;
     Service.opAsset := Service.stellarAsset (Batcher.parseAsset (asset p));
     Service.opAmount := amount p |}.

(** The unsigned transaction that pays [payments] from the account of the
    service at the sequence number [seq]. *)
Definition transactionOf (this : Service.Config) (payments : list PaymentInstruction)
    (seq : Z) : Service.Transaction :=
  {| Service.source := Service.publicKey this;
     Service.sequence := JS.showZ seq;
     Service.fee := "100";
     Service.passphrase := Service.configNetwork this;
     Service.operations := map operationOf payments;
     Service.timeout := 300;
     Service.signatures := [] |}.

(** The transactions sent to the ledger, and those it accepted, in order. *)
Definition submitted (evs : list Service.Event) : list Service.Transaction :=
  flat_map (fun ev => match ev with
                      | Service.Submitted tx _ => [tx]
                      | _ => []
                      end) evs.

Definition accepted (evs : list Service.Event) : list Service.Transaction :=
  flat_map (fun ev => match ev with
                      | Service.Submitted tx (JS.Ok r) =>
                          if Service.successful r then [tx] else []
                      | _ => []
                      end) evs.

(** The results of one transaction: all paid with one hash, or all failed
    with one message. *)
Definition block (batch : list PaymentInstruction)
    (rs : list Service.PaymentResult.t) : Prop :=
  (exists h, rs = map (Service.successResult h) batch)
  \/ (exists msg, rs = map (Service.failedResult msg) batch).

Section Turns.
Import JS Service.

Context {L : Type} `{LedgerClient L}.
Variable this : Config.

(** Some call of the SDK throws while the transaction of this batch is
    built and signed. *)
Definition sdkThrows (batch : list PaymentInstruction) (seq : Z) : Prop :=
  builderThrows (publicKey this) (showZ seq) <> None
  \/ (exists p, In p batch /\ operationThrows (operationOf p) <> None)
  \/ buildThrows (transactionOf this batch seq) <> None
  \/ signThrows (transactionOf this batch seq) <> None.

(** The batch loop as a relation: from the state [st], the loop over
    [batches] shows the events [evs] to the ledger and ends in [st']. A
    batch is not sent (the SDK threw), sent and accepted, or sent and not
    accepted. *)
Inductive turns
    : RunState -> list (list PaymentInstruction) -> list Event -> RunState -> Prop :=
  | turns_done st : turns st [] [] st
  | turns_unsent st batch msg rest evs st' :
      sdkThrows batch (sequenceNumber st) ->
      turns (fold_left (pushFailed msg) batch st) rest evs st' ->
      turns st (batch :: rest) evs st'
  | turns_accepted st batch resp rest evs st' :
      successful resp = true ->
      turns (bump (fold_left (pushSuccess (hash resp)) batch st)) rest evs st' ->
      turns st (batch :: rest)
            (Submitted (sign (publicKey this)
                             (transactionOf this batch (sequenceNumber st)))
                       (Ok resp) :: evs) st'
  | turns_refused st batch r msg rest evs st' :
      match r with Ok resp => successful resp = false | Throw _ => True end ->
      turns (fold_left (pushFailed msg) batch st) rest evs st' ->
      turns st (batch :: rest)
            (Submitted (sign (publicKey this)
                             (transactionOf this batch (sequenceNumber st)))
                       r :: evs) st'.

End Turns.

End Notions.

(** A Horizon server that cannot be reached. *)
Module Offline.
Import JS Service.

#[export] Instance unreachable : LedgerClient unit := {|
  loadAccount l pk := (Throw (Error "Network Error"), l);
  submit l tx := (Throw (Error "Network Error"), l);
  builderThrows pk seq := None;
  operationThrows op := None;
  buildThrows tx := None;
  signThrows tx := None;
  clock l := "2024-01-01T00:00:00.000Z";
|}.

End Offline.

(** ** [parser.ts]: [parseJSON] *)

Module Json.
Import JS.

(** A value [JSON.parse] returns; an object is the map of its own
    properties. *)
#[warnings="-register-all"]
Inductive Value :=
  | Null
  | Bool (b : bool)
  | Number (x : spec_float)
  | Str (s : string)
  | Arr (items : list Value)
  | Obj (properties : gmap string Value).

(** [Array.isArray] *)
Definition isArray (v : Value) : bool :=
  match v with Arr _ => true | _ => false end.

Definition expectedArray : string :=
  "Expected an array of payment instructions or object with "
  +:+ Parser.quoted "payments" +:+ " array".

Section Engine.

(** The engine: [JSON.parse] gives a value or throws a [SyntaxError], of
    which the message is kept; reading a property of [null] throws a
    [TypeError] with the message [nullRead]. *)
Variable JSON_parse : string -> Value + string.
Variable nullRead : string.

(** [data.payments], [None] for [undefined]. *)
Definition payments (data : Value) : Result (option Value) :=
  match data with
  | Null => Throw (Error nullRead)
  | Obj properties => Ok (properties !! "payments")
  | _ => Ok None
  end.

(** [parseJSON]: the array is returned as it is, the declared element type
    is not checked at run time. *)
Definition parseJSON (content : string) : Result (list Value) :=
  let body :=
    match JSON_parse content with
    | inr message => Throw (Error message)
    | inl data =>
        match (if isArray data then Ok (Some data) else payments data) with
        | Throw e => Throw e
        | Ok (Some (Arr items)) => Ok items
        | Ok _ => Throw (Error expectedArray)
        end
    end in
  match body with
  | Ok items => Ok items
  | Throw error =>
      Throw (Error ("Failed to parse JSON: " +:+ Service.messageOf error))
  end.

End Engine.

End Json.

(** * Verification *)

(** ** The loop invariants of [createBatches] *)

Section BatcherFacts.
Import Batcher.

Lemma inv_initial m : 1 <= m -> inv m [] initial.
Proof. intros Hm. split; simpl; auto; lia. Qed.

Lemma indices_snoc (bs : list Batch) (i : Z) (b : Batch) :
  map transactionIndex bs = map Z.of_nat (seq 0 (length bs)) ->
  transactionIndex b = Z.of_nat (length bs) ->
  map transactionIndex (bs ++ [b]) = map Z.of_nat (seq 0 (length (bs ++ [b]))).
Proof.
  intros Hbs Hb.
  rewrite length_app, Nat.add_1_r, seq_S, !map_app, Hbs. simpl.
  now rewrite Hb.
Qed.

Lemma inv_step m done st x :
  1 <= m -> inv m done st -> inv m (done ++ [x]) (step m st x).
Proof.
  intros Hm [Hi Hs Hf Ho Hc]. unfold step.
  assert (Hlen : Z.of_nat (length (currentBatch st ++ [x]))
                 = Z.of_nat (length (currentBatch st)) + 1).
  { rewrite length_app. simpl. lia. }
  destruct (Z.geb_spec (Z.of_nat (length (currentBatch st ++ [x]))) m) as [Hge|Hlt].
  - split; simpl.
    + rewrite length_app. simpl. lia.
    + apply indices_snoc; auto.
    + apply Forall_app. split; auto. constructor; auto. simpl. lia.
    + lia.
    + rewrite map_app, concat_app. simpl.
      rewrite !app_nil_r, <- Hc. now rewrite app_assoc.
  - split; simpl; auto; try lia.
    rewrite <- Hc. now rewrite app_assoc.
Qed.

Lemma inv_fold m l : forall done st,
  1 <= m -> inv m done st -> inv m (done ++ l) (fold_left (step m) l st).
Proof.
  induction l as [|x l IH]; intros done st Hm H; simpl.
  - now rewrite app_nil_r.
  - replace (done ++ x :: l) with ((done ++ [x]) ++ l)
      by (now rewrite <- app_assoc).
    apply IH; auto. now apply inv_step.
Qed.

Lemma length_concat_full (m : Z) (bs : list Batch) :
  Forall (fun b => Z.of_nat (length (payments b)) = m) bs ->
  Z.of_nat (length (concat (map payments bs))) = m * Z.of_nat (length bs).
Proof.
  induction 1 as [|b bs Hb _ IH]; simpl; [lia|].
  rewrite length_app. lia.
Qed.

Lemma inv1_step m done st x :
  m <= 0 -> inv1 done st -> inv1 (done ++ [x]) (step m st x).
Proof.
  intros Hm [Hi Hs Ho Hx]. unfold step. rewrite Ho. simpl.
  destruct (Z.geb_spec (Z.of_nat 1) m) as [_|Hlt]; [|lia].
  split; simpl.
  - rewrite length_app. simpl. lia.
  - now rewrite !map_app, Hs.
  - reflexivity.
  - apply indices_snoc; auto.
Qed.

Lemma inv1_fold m l : forall done st,
  m <= 0 -> inv1 done st -> inv1 (done ++ l) (fold_left (step m) l st).
Proof.
  induction l as [|x l IH]; intros done st Hm H; simpl.
  - now rewrite app_nil_r.
  - replace (done ++ x :: l) with ((done ++ [x]) ++ l)
      by (now rewrite <- app_assoc).
    apply IH; auto. now apply inv1_step.
Qed.

End BatcherFacts.

(** ** [createBatches] *)

Section CreateBatches.
Import Batcher.

Lemma ceil_div_exact m q : 1 <= m -> ceil_div (m * q) m = q.
Proof.
  intros Hm. unfold ceil_div. symmetry.
  apply Z.div_unique with (r := m - 1); lia.
Qed.

Lemma ceil_div_open m q r : 0 < r < m -> ceil_div (m * q + r) m = q + 1.
Proof.
  intros Hr. unfold ceil_div. symmetry.
  apply Z.div_unique with (r := r - 1); lia.
Qed.

Lemma size_le_of_full m (bs : list Batch) :
  Forall (fun b => Z.of_nat (length (payments b)) = m) bs ->
  Forall (fun b => Z.of_nat (length (payments b)) <= m) bs.
Proof. apply List.Forall_impl. intros b Hb. lia. Qed.

Lemma length_walked m instructions st :
  inv m instructions st ->
  Z.of_nat (length instructions)
  = m * Z.of_nat (length (batches st)) + Z.of_nat (length (currentBatch st)).
Proof.
  intros [_ _ Hf _ Hc].
  rewrite <- Hc, length_app, Nat2Z.inj_add.
  now rewrite (length_concat_full m).
Qed.

(** C1, as amended: for every bound [m >= 1] and every instruction list of
    length [n], [createBatches] returns [ceil(n/m)] batches, each of at most
    [m] payments, whose payments concatenated in order are the input list,
    and whose [transactionIndex] fields are 0, 1, 2, ... in order. *)
Theorem createBatches_partition (m : Z) (instructions : list PaymentInstruction) :
  1 <= m -> partition_spec m instructions.
Proof.
  intros Hm. unfold partition_spec, createBatches.
  pose proof (length_walked m instructions _
                (inv_fold m instructions [] initial Hm (inv_initial m Hm))) as Hn.
  destruct (inv_fold m instructions [] initial Hm (inv_initial m Hm))
    as [Hi Hs Hf Ho Hc].
  simpl in Hc.
  set (st := fold_left (step m) instructions initial) in *.
  destruct (Nat.ltb_spec 0 (length (currentBatch st))) as [Hpos|Hzero].
  - repeat split.
    + rewrite Hn, length_app, ceil_div_open by lia. simpl. lia.
    + apply Forall_app. split; [now apply size_le_of_full|].
      constructor; auto. simpl. lia.
    + rewrite map_app, concat_app. simpl. now rewrite app_nil_r.
    + apply indices_snoc; auto.
  - repeat split.
    + rewrite Hn. replace (Z.of_nat (length (currentBatch st))) with 0 by lia.
      now rewrite Z.add_0_r, ceil_div_exact.
    + now apply size_le_of_full.
    + rewrite <- Hc. destruct (currentBatch st); [now rewrite app_nil_r|].
      simpl in Hzero. lia.
    + exact Hs.
Qed.

Lemma createBatches_partition_witness :
  1 <= 2 /\ partition_spec 2 [Mock.pay Mock.alice "100"; Mock.pay Mock.bob "50";
                              Mock.pay Mock.alice "75"].
Proof. split; [lia | apply createBatches_partition; lia]. Defined.

(** C1 fails at the bound 0: one instruction gives one batch of one payment,
    which is more than 0. *)
Lemma createBatches_bound_zero :
  ~ partition_spec 0 [Mock.pay Mock.alice "100"].
Proof.
  intros (_ & Hsize & _). vm_compute in Hsize.
  apply Forall_inv in Hsize. apply Hsize. reflexivity.
Qed.

(** C9: for every bound [m <= 0], [createBatches] returns as many batches as
    there are instructions, the i-th batch holding exactly the i-th
    instruction. *)
Theorem createBatches_saturates (m : Z) (instructions : list PaymentInstruction) :
  m <= 0 ->
  length (createBatches instructions m) = length instructions
  /\ map payments (createBatches instructions m)
     = map (fun x => [x]) instructions.
Proof.
  intros Hm.
  assert (H0 : inv1 [] initial) by (split; reflexivity).
  destruct (inv1_fold m instructions [] initial Hm H0) as [Hi Hs Ho Hx].
  simpl in Hs. unfold createBatches. rewrite Ho. simpl.
  split; [|exact Hs].
  rewrite <- (length_map payments), Hs. apply length_map.
Qed.

Lemma createBatches_saturates_witness :
  -3 <= 0
  /\ length (createBatches [Mock.pay Mock.alice "1"; Mock.pay Mock.bob "2"] (-3))
     = 2%nat
  /\ map payments (createBatches [Mock.pay Mock.alice "1"; Mock.pay Mock.bob "2"] (-3))
     = [[Mock.pay Mock.alice "1"]; [Mock.pay Mock.bob "2"]].
Proof.
  split; [lia|].
  apply (createBatches_saturates (-3) [Mock.pay Mock.alice "1"; Mock.pay Mock.bob "2"]).
  lia.
Defined.

(** A list that fits in the bound gives one batch, with index 0. *)
Theorem createBatches_single (m : Z) (instructions : list PaymentInstruction) :
  (1 <= length instructions)%nat ->
  Z.of_nat (length instructions) <= m ->
  createBatches instructions m
  = [ {| transactionIndex := 0; payments := instructions |} ].
Proof.
  intros Hn Hm. assert (H1 : 1 <= m) by lia.
  pose proof (inv_fold m instructions [] initial H1 (inv_initial m H1)) as Hinv.
  pose proof (length_walked m instructions _ Hinv) as Hlen.
  destruct Hinv as [Hi Hs Hf Ho Hc]. simpl in Hc.
  unfold createBatches.
  set (st := fold_left (step m) instructions initial) in *.
  destruct (batches st) as [|[i ps] [|b bs]] eqn:Hb; simpl in *.
  - rewrite Hi, Hc.
    destruct (Nat.ltb_spec 0 (length instructions)); [reflexivity | lia].
  - apply Forall_inv in Hf. simpl in Hf.
    assert (Hcur : currentBatch st = [])
      by (destruct (currentBatch st); simpl in *; [reflexivity | lia]).
    rewrite Hcur in *. simpl. rewrite !app_nil_r in Hc.
    injection Hs as ->. now subst ps.
  - apply Forall_inv in Hf. simpl in Hf. nia.
Qed.

Lemma createBatches_single_witness :
  createBatches [Mock.pay Mock.alice "100"; Mock.pay Mock.bob "50"] 100
  = [ {| transactionIndex := 0;
         payments := [Mock.pay Mock.alice "100"; Mock.pay Mock.bob "50"] |} ].
Proof.
  apply (createBatches_single 100 [Mock.pay Mock.alice "100"; Mock.pay Mock.bob "50"]).
  - simpl. lia.
  - simpl. lia.
Defined.

End CreateBatches.

(** ** Doubles: the cases without rounding *)

Section Doubles.
Import Num Spec.

Lemma shiftBy_Z m n : Zpos (shiftBy m n) = Zpos m * 2 ^ Z.of_nat n.
Proof.
  induction n as [|n IH].
  - simpl. lia.
  - unfold shiftBy in *. simpl Nat.iter.
    rewrite Pos2Z.inj_xO, IH, Nat2Z.inj_succ, Z.pow_succ_r by lia. lia.
Qed.

Lemma digits_shiftBy m n :
  Zpos (digits2_pos (shiftBy m n)) = Zpos (digits2_pos m) + Z.of_nat n.
Proof.
  induction n as [|n IH].
  - simpl. lia.
  - unfold shiftBy in *. simpl Nat.iter. simpl digits2_pos. rewrite Pos2Z.inj_succ, IH. lia.
Qed.

Lemma iter_pos_nat {A} (f : A -> A) p : forall x,
  SpecFloat.iter_pos f p x = Nat.iter (Pos.to_nat p) f x.
Proof.
  induction p as [p IH|p IH|]; intros x; cbn [SpecFloat.iter_pos].
  - rewrite !IH, Pos2Nat.inj_xI, <- Nat.iter_add, <- Nat.iter_succ_r.
    f_equal. lia.
  - rewrite !IH, Pos2Nat.inj_xO, <- Nat.iter_add. f_equal. lia.
  - reflexivity.
Qed.

Lemma shr_shiftBy m n :
  Nat.iter n shr_1 {| shr_m := Zpos (shiftBy m n); shr_r := false; shr_s := false |}
  = {| shr_m := Zpos m; shr_r := false; shr_s := false |}.
Proof.
  induction n as [|n IH]; [reflexivity|].
  rewrite Nat.iter_succ_r. unfold shiftBy. simpl Nat.iter at 2. simpl shr_1. exact IH.
Qed.

Lemma shr_exact m k e :
  0 <= k ->
  shr {| shr_m := Zpos (shiftBy m (Z.to_nat k)); shr_r := false; shr_s := false |} e k
  = ({| shr_m := Zpos m; shr_r := false; shr_s := false |}, e + k).
Proof.
  intros Hk. unfold shr. destruct k as [|p|p]; [| |lia].
  - simpl. now rewrite Z.add_0_r.
  - rewrite iter_pos_nat. change (Z.to_nat (Z.pos p)) with (Pos.to_nat p).
    now rewrite shr_shiftBy.
Qed.

(** Rounding a canonical mantissa that was shifted left by [k] bits shifts
    it back: nothing is lost. *)
Lemma round_exact m e k :
  bounded Num.prec Num.emax m e = true -> 0 <= k ->
  binary_round_aux Num.prec Num.emax false (Zpos (shiftBy m (Z.to_nat k))) (e - k) loc_Exact
  = S754_finite false m e.
Proof.
  intros Hb Hk. unfold bounded in Hb. apply andb_prop in Hb as [Hc He].
  unfold canonical_mantissa in Hc. apply Z.eqb_eq in Hc. apply Z.leb_le in He.
  unfold binary_round_aux, shr_fexp. cbn [shr_record_of_loc].
  cbn [Zdigits2]. rewrite digits_shiftBy, Z2Nat.id by lia.
  replace (Z.pos (digits2_pos m) + k + (e - k)) with (Z.pos (digits2_pos m) + e) by lia.
  rewrite Hc. replace (e - (e - k)) with k by lia.
  rewrite shr_exact by lia. cbn [shr_m loc_of_shr_record round_nearest_even].
  replace (e - k + k) with e by lia.
  cbn [Zdigits2]. rewrite Hc, Z.sub_diag. cbn [shr shr_m].
  apply Z.leb_le in He. now rewrite He.
Qed.

Lemma shiftBy_eq M m k : 0 <= k -> Zpos M = Zpos m * 2 ^ k -> M = shiftBy m (Z.to_nat k).
Proof.
  intros Hk H. apply Pos2Z.inj. rewrite shiftBy_Z, Z2Nat.id by lia. exact H.
Qed.

Lemma bounded_emin m e : bounded Num.prec Num.emax m e = true -> -1074 <= e.
Proof.
  unfold bounded, canonical_mantissa, fexp, emin. intros H.
  apply andb_prop in H as [H _]. apply Z.eqb_eq in H.
  unfold Num.prec, Num.emax in H.
  change IntDef.Z.max with Z.max in H. lia.
Qed.

(** Rounding a value that is a double gives that double. *)
Lemma binary_round_exact M ez m e :
  bounded Num.prec Num.emax m e = true -> -1074 <= ez ->
  Zpos M * 2 ^ (ez + 1074) = Zpos m * 2 ^ (e + 1074) ->
  binary_round Num.prec Num.emax false M ez = S754_finite false m e.
Proof.
  intros Hb Hez Hv. pose proof (bounded_emin m e Hb) as He.
  assert (Hc : fexp Num.prec Num.emax (Zpos (digits2_pos m) + e) = e).
  { unfold bounded in Hb. apply andb_prop in Hb as [Hc _]. now apply Z.eqb_eq in Hc. }
  unfold binary_round.
  destruct (Z.le_gt_cases ez e) as [Hle|Hgt].
  - assert (HM : M = shiftBy m (Z.to_nat (e - ez))).
    { apply shiftBy_eq; [lia|].
      replace (e + 1074) with ((e - ez) + (ez + 1074)) in Hv by lia.
      rewrite (Z.pow_add_r 2 (e - ez) (ez + 1074)), Z.mul_assoc in Hv by lia.
      apply Z.mul_cancel_r in Hv; [exact Hv|]. apply Z.pow_nonzero; lia. }
    assert (Hdig : Z.pos (digits2_pos M) + ez = Z.pos (digits2_pos m) + e).
    { rewrite HM, digits_shiftBy, Z2Nat.id by lia. lia. }
    rewrite Hdig, Hc. unfold shl_align.
    destruct (e - ez) as [|p|p] eqn:Hd; try lia.
    + rewrite HM. replace ez with (e - 0) at 1 by lia. now apply round_exact.
    + rewrite HM. replace ez with (e - Z.pos p) at 1 by lia. apply round_exact; [exact Hb|lia].
  - assert (Hm : m = shiftBy M (Z.to_nat (ez - e))).
    { apply shiftBy_eq; [lia|].
      replace (ez + 1074) with ((ez - e) + (e + 1074)) in Hv by lia.
      rewrite (Z.pow_add_r 2 (ez - e) (e + 1074)), Z.mul_assoc in Hv by lia.
      apply Z.mul_cancel_r in Hv; [now symmetry|]. apply Z.pow_nonzero; lia. }
    assert (Hdig : Z.pos (digits2_pos M) + ez = Z.pos (digits2_pos m) + e).
    { rewrite Hm, digits_shiftBy, Z2Nat.id by lia. lia. }
    rewrite Hdig, Hc. unfold shl_align.
    destruct (e - ez) as [|p|p] eqn:Hd; try lia.
    assert (Hp : Pos.iter xO M p = m).
    { rewrite Hm. unfold shiftBy. rewrite Pos2Nat.inj_iter.
      replace (Z.to_nat (ez - e)) with (Pos.to_nat p) by lia. reflexivity. }
    rewrite Hp. replace e with (e - 0) at 1 by lia.
    change m with (shiftBy m (Z.to_nat 0)) at 1. now apply round_exact.
Qed.



(** A value has one canonical form. *)
Lemma canonical_unique m e m' e' :
  bounded Num.prec Num.emax m e = true -> bounded Num.prec Num.emax m' e' = true ->
  Zpos m * 2 ^ (e + 1074) = Zpos m' * 2 ^ (e' + 1074) ->
  S754_finite false m e = S754_finite false m' e'.
Proof.
  intros Hb Hb' Hv.
  pose proof (bounded_emin m e Hb) as He.
  assert (Hr : binary_round Num.prec Num.emax false m e = S754_finite false m' e')
    by (now apply binary_round_exact).
  rewrite <- Hr. symmetry. now apply binary_round_exact.
Qed.

Lemma shl_align_value mx ex ez :
  ez <= ex -> -1074 <= ez ->
  Zpos (fst (shl_align mx ex ez)) * 2 ^ (ez + 1074) = Zpos mx * 2 ^ (ex + 1074).
Proof.
  intros Hle Hez. unfold shl_align.
  destruct (ez - ex) as [|p|p] eqn:Hd; try lia.
  - simpl. f_equal. f_equal. lia.
  - simpl. rewrite Pos2Nat.inj_iter.
    change (nat_rect _ mx (fun _ => xO) (Pos.to_nat p)) with (shiftBy mx (Pos.to_nat p)).
    rewrite shiftBy_Z, positive_nat_Z.
    replace (ex + 1074) with (Zpos p + (ez + 1074)) by lia.
    rewrite (Z.pow_add_r 2 (Zpos p)) by lia. lia.
Qed.

Lemma units_pos m e : -1074 <= e -> 0 < Zpos m * 2 ^ (e + 1074).
Proof. intros He. apply Z.mul_pos_pos; [lia|]. apply Z.pow_pos_nonneg; lia. Qed.

(** The sum of two non-negative doubles is exact when it is a double. *)
Lemma add_exact x y z :
  nonnegFinite x = true -> nonnegFinite y = true -> nonnegFinite z = true ->
  units x + units y = units z ->
  Num.add x y = z.
Proof.
  unfold Num.add.
  destruct x as [[|]| | |[|] mx ex]; try discriminate;
  destruct y as [[|]| | |[|] my ey]; try discriminate;
  destruct z as [[|]| | |[|] m e]; try discriminate;
  simpl nonnegFinite; intros Hx Hy Hz Hu; simpl in Hu.
  - reflexivity.
  - pose proof (units_pos m e (bounded_emin _ _ Hz)). lia.
  - pose proof (units_pos my ey (bounded_emin _ _ Hy)). lia.
  - simpl. apply canonical_unique; auto. lia.
  - pose proof (units_pos mx ex (bounded_emin _ _ Hx)). lia.
  - simpl. apply canonical_unique; auto. lia.
  - pose proof (units_pos mx ex (bounded_emin _ _ Hx)).
    pose proof (units_pos my ey (bounded_emin _ _ Hy)). lia.
  - pose proof (bounded_emin _ _ Hx) as Hex. pose proof (bounded_emin _ _ Hy) as Hey.
    unfold SFadd. cbn [cond_Zopp].
    set (ez := Z.min ex ey).
    assert (Hez : -1074 <= ez) by (unfold ez; change IntDef.Z.min with Z.min; lia).
    assert (Hzx : ez <= ex) by (unfold ez; change IntDef.Z.min with Z.min; lia).
    assert (Hzy : ez <= ey) by (unfold ez; change IntDef.Z.min with Z.min; lia).
    pose proof (shl_align_value mx ex ez Hzx Hez) as Vx.
    pose proof (shl_align_value my ey ez Hzy Hez) as Vy.
    change (Z.pos (fst (shl_align mx ex ez)) + Z.pos (fst (shl_align my ey ez)))
      with (Z.pos (fst (shl_align mx ex ez) + fst (shl_align my ey ez))).
    unfold binary_normalize. apply binary_round_exact; auto.
    rewrite Pos2Z.inj_add. lia.
Qed.

Lemma digits_bounds m :
  2 ^ (Zpos (digits2_pos m) - 1) <= Zpos m < 2 ^ Zpos (digits2_pos m).
Proof.
  induction m as [m IH|m IH|]; cbn [digits2_pos].
  - rewrite Pos2Z.inj_succ, (Pos2Z.inj_xI m).
    replace (Z.succ (Zpos (digits2_pos m)) - 1) with (Z.succ (Zpos (digits2_pos m) - 1)) by lia.
    rewrite !Z.pow_succ_r by lia. lia.
  - rewrite Pos2Z.inj_succ, (Pos2Z.inj_xO m).
    replace (Z.succ (Zpos (digits2_pos m)) - 1) with (Z.succ (Zpos (digits2_pos m) - 1)) by lia.
    rewrite !Z.pow_succ_r by lia. lia.
  - simpl. lia.
Qed.

Lemma fexp_mono a b : a <= b -> fexp Num.prec Num.emax a <= fexp Num.prec Num.emax b.
Proof.
  unfold fexp, emin, Num.prec, Num.emax.
  change IntDef.Z.max with Z.max. lia.
Qed.

Lemma fexp_emin a : -1074 <= fexp Num.prec Num.emax a.
Proof.
  unfold fexp, emin, Num.prec, Num.emax.
  change IntDef.Z.max with Z.max. lia.
Qed.

Lemma new_location_zero d : new_location d 0 = loc_Exact.
Proof. unfold new_location, new_location_even, new_location_odd. now destruct (Z.even d). Qed.

Lemma quotient_magnitude p D m e :
  -1074 <= e ->
  Zpos p * 2 ^ 1074 = Zpos m * 2 ^ (e + 1074) * Zpos D ->
  Zpos (digits2_pos p) - Zpos (digits2_pos D) <= Zpos (digits2_pos m) + e.
Proof.
  intros He Hv.
  destruct (digits_bounds p) as [Hp _].
  destruct (digits_bounds D) as [_ HD].
  destruct (digits_bounds m) as [_ Hm].
  set (d1 := Zpos (digits2_pos p)) in *.
  set (d2 := Zpos (digits2_pos D)) in *.
  set (dm := Zpos (digits2_pos m)) in *.
  assert (H1 : 2 ^ (d1 - 1 + 1074) <= Zpos p * 2 ^ 1074).
  { rewrite Z.pow_add_r by lia. apply Z.mul_le_mono_nonneg_r; [lia | exact Hp]. }
  assert (H2 : Zpos m * 2 ^ (e + 1074) * Zpos D < 2 ^ (dm + (e + 1074) + d2)).
  { rewrite (Z.pow_add_r 2 (dm + (e + 1074)) d2), (Z.pow_add_r 2 dm (e + 1074)) by lia.
    assert (Hpow : 0 < 2 ^ (e + 1074)) by (apply Z.pow_pos_nonneg; lia).
    apply Z.mul_lt_mono_nonneg; [ | | lia | exact HD].
    - apply Z.mul_nonneg_nonneg; lia.
    - apply Z.mul_lt_mono_pos_r; [exact Hpow | exact Hm]. }
  rewrite <- Hv in H2.
  assert (H3 : 2 ^ (d1 - 1 + 1074) < 2 ^ (dm + (e + 1074) + d2)) by lia.
  apply Z.pow_lt_mono_r_iff in H3; lia.
Qed.

(** The quotient of two integers is exact when it is a double. *)
Lemma SFdiv_exact p D m e :
  bounded Num.prec Num.emax m e = true ->
  Zpos p * 2 ^ 1074 = Zpos m * 2 ^ (e + 1074) * Zpos D ->
  SFdiv Num.prec Num.emax (S754_finite false p 0) (S754_finite false D 0)
  = S754_finite false m e.
Proof.
  intros Hb Hv. pose proof (bounded_emin m e Hb) as He.
  assert (Hc : fexp Num.prec Num.emax (Zpos (digits2_pos m) + e) = e).
  { unfold bounded in Hb. apply andb_prop in Hb as [Hc _]. now apply Z.eqb_eq in Hc. }
  pose proof (quotient_magnitude p D m e He Hv) as Hmag.
  unfold SFdiv, SFdiv_core_binary. cbn [Zdigits2 xorb].
  set (e' := Z.min (fexp Num.prec Num.emax
                      (Z.pos (digits2_pos p) + 0 - (Z.pos (digits2_pos D) + 0)))
                   (0 - 0)).
  assert (He' : e' <= e /\ e' <= 0 /\ -1074 <= e').
  { unfold e'. change IntDef.Z.min with Z.min.
    pose proof (fexp_mono _ _ Hmag) as Hf. rewrite Hc in Hf.
    pose proof (fexp_emin (Z.pos (digits2_pos p) - Z.pos (digits2_pos D))).
    replace (Z.pos (digits2_pos p) + 0 - (Z.pos (digits2_pos D) + 0))
      with (Z.pos (digits2_pos p) - Z.pos (digits2_pos D)) by lia.
    lia. }
  destruct He' as (Hle & Hneg & Hmin).
  assert (Hm' : match 0 - 0 - e' with
                | Z.pos _ => Z.shiftl (Z.pos p) (0 - 0 - e')
                | 0 => Z.pos p
                | Z.neg _ => 0
                end = Zpos (shiftBy m (Z.to_nat (e - e'))) * Zpos D).
  { assert (Hs : Zpos p * 2 ^ (- e') = Zpos (shiftBy m (Z.to_nat (e - e'))) * Zpos D).
    { rewrite shiftBy_Z, Z2Nat.id by lia.
      apply (Z.mul_cancel_r _ _ (2 ^ (1074 + e'))); [apply Z.pow_nonzero; lia|].
      rewrite <- Z.mul_assoc, <- Z.pow_add_r by lia.
      replace (- e' + (1074 + e')) with 1074 by lia. rewrite Hv.
      replace (e + 1074) with ((e - e') + (1074 + e')) by lia.
      rewrite (Z.pow_add_r 2 (e - e')) by lia. lia. }
    destruct (0 - 0 - e') as [|s|s] eqn:Hd; try lia.
    - replace (- e') with 0 in Hs by lia. rewrite Z.pow_0_r, Z.mul_1_r in Hs. exact Hs.
    - rewrite Z.shiftl_mul_pow2 by lia. replace (Z.pos s) with (- e') by lia. exact Hs. }
  rewrite Hm'.
  change IntDef.Z.div_eucl with Z.div_eucl.
  assert (Hdiv : Z.div_eucl (Zpos (shiftBy m (Z.to_nat (e - e'))) * Zpos D) (Zpos D)
                 = (Zpos (shiftBy m (Z.to_nat (e - e'))), 0)).
  { pose proof (Z.div_eucl_eq (Zpos (shiftBy m (Z.to_nat (e - e'))) * Zpos D) (Zpos D)) as Hq.
    pose proof (Z.mod_pos_bound (Zpos (shiftBy m (Z.to_nat (e - e'))) * Zpos D) (Zpos D)) as Hr.
    unfold Z.modulo in Hr.
    destruct (Z.div_eucl _ _) as [q r]. specialize (Hq ltac:(lia)). specialize (Hr ltac:(lia)).
    assert (q = Zpos (shiftBy m (Z.to_nat (e - e')))) by nia.
    subst q. f_equal. lia. }
  rewrite Hdiv, new_location_zero.
  replace e' with (e - (e - e')) at 2 by lia.
  apply round_exact; [exact Hb | lia].
Qed.

(** A decimal [N * 10^e10] that is a double is read as that double. *)
Lemma ofDecimal_exact N e10 z :
  0 <= N -> nonnegFinite z = true ->
  N * 10 ^ Z.max e10 0 * 2 ^ 1074 = units z * 10 ^ Z.max (- e10) 0 ->
  Num.ofDecimal false N e10 = z.
Proof.
  intros HN Hz Hv. unfold Num.ofDecimal.
  assert (H10 : forall k, 0 <= k -> 0 < 10 ^ k) by (intros; apply Z.pow_pos_nonneg; lia).
  pose proof (H10 (Z.max e10 0) ltac:(lia)) as Ha.
  pose proof (H10 (Z.max (- e10) 0) ltac:(lia)) as Hb.
  destruct z as [[|]| | |[|] m e]; try discriminate; simpl in Hz, Hv.
  - destruct N as [|p|p]; [reflexivity| |lia]. nia.
  - pose proof (units_pos m e (bounded_emin _ _ Hz)) as Hu.
    destruct N as [|p|p]; [nia| |lia].
    destruct (Z.leb_spec 0 e10) as [Hpos|Hneg].
    + unfold binary_normalize. apply binary_round_exact; [exact Hz | lia | ].
      rewrite Pos2Z.inj_mul, Z2Pos.id by (apply H10; lia).
      replace (Z.max e10 0) with e10 in Hv by lia.
      replace (Z.max (- e10) 0) with 0 in Hv by lia.
      rewrite Z.pow_0_r in Hv. lia.
    + apply SFdiv_exact; [exact Hz | ].
      rewrite Z2Pos.id by (apply H10; lia).
      replace (Z.max e10 0) with 0 in Hv by lia.
      replace (Z.max (- e10) 0) with (- e10) in Hv by lia.
      rewrite Z.pow_0_r in Hv. lia.
Qed.





Lemma fold_add_exact xs : forall acc,
  nonnegFinite acc = true ->
  Forall (fun x => nonnegFinite x = true) xs ->
  Forall representable (runningSums (units acc) (map units xs)) ->
  nonnegFinite (fold_left Num.add xs acc) = true
  /\ units (fold_left Num.add xs acc) = units acc + sumZ (map units xs).
Proof.
  induction xs as [|x xs IH]; intros acc Hacc Hxs Hrep; simpl.
  - split; [exact Hacc | lia].
  - inversion Hxs as [|? ? Hx Hxs']; subst.
    simpl in Hrep. inversion Hrep as [|? ? (z & Hz & Hu) Hrep']; subst.
    rewrite (add_exact acc x z Hacc Hx Hz) by lia.
    rewrite <- Hu in Hrep'.
    destruct (IH z Hz Hxs' Hrep') as [Ha Hs]. split; [exact Ha|]. lia.
Qed.


Lemma spanDigits_all ip rest :
  JS.allChars Num.isDigit ip = true ->
  match rest with String c _ => Num.isDigit c = false | EmptyString => True end ->
  Num.spanDigits (ip +:+ rest) = (ip, rest).
Proof.
  intros Hip Hrest. induction ip as [|c ip IH]; simpl in *.
  - destruct rest as [|c r]; [reflexivity|]. simpl. now rewrite Hrest.
  - apply andb_prop in Hip as [Hc Hip]. rewrite Hc, (IH Hip). reflexivity.
Qed.

Lemma digitsValue_nonneg s : forall acc,
  JS.allChars Num.isDigit s = true -> 0 <= acc -> 0 <= Num.digitsValue s acc.
Proof.
  induction s as [|c s IH]; intros acc Hs Hacc; simpl in *; [exact Hacc|].
  apply andb_prop in Hs as [Hc Hs]. apply IH; [exact Hs|].
  unfold Num.isDigit in Hc. apply andb_prop in Hc as [Hlo _].
  apply Nat.leb_le in Hlo. lia.
Qed.

Lemma append_nil_r (s : string) : s = (s +:+ EmptyString).
Proof.
  induction s as [|a s IH]; [reflexivity|].
  change (String a s +:+ EmptyString) with (String a (s +:+ EmptyString)).
  now rewrite <- IH.
Qed.

Lemma digit_not_space c s :
  Num.isDigit c = true -> JS.trimStart (String c s) = String c s.
Proof. destruct c as [[] [] [] [] [] [] [] []]; try discriminate; reflexivity. Qed.

Lemma digit_no_sign c s :
  Num.isDigit c = true -> Num.takeSign (String c s) = (false, String c s).
Proof. destruct c as [[] [] [] [] [] [] [] []]; try discriminate; reflexivity. Qed.

Lemma digit_not_infinity c s :
  Num.isDigit c = true -> String.prefix "Infinity" (String c s) = false.
Proof. destruct c as [[] [] [] [] [] [] [] []]; try discriminate; reflexivity. Qed.

Lemma parseFloat_plain c ip fp :
  Num.isDigit c = true ->
  JS.allChars Num.isDigit ip = true -> JS.allChars Num.isDigit fp = true ->
  Num.parseFloat (String c ip +:+ String "." fp)
  = Num.ofDecimal false (Num.digitsValue (String c ip +:+ fp) 0)
                  (- Z.of_nat (String.length fp)).
Proof.
  intros Hc Hip Hfp. unfold Num.parseFloat.
  change (String c ip +:+ String "." fp) with (String c (ip +:+ String "." fp)).
  rewrite digit_not_space, digit_no_sign, digit_not_infinity by exact Hc.
  change (String c (ip +:+ String "." fp)) with (String c ip +:+ String "." fp).
  rewrite spanDigits_all; [| simpl; now rewrite Hc | reflexivity].
  pose proof (spanDigits_all fp EmptyString Hfp I) as Hspan.
  replace (fp +:+ EmptyString) with fp in Hspan.
  2:{ apply append_nil_r. }
  rewrite Hspan. simpl. f_equal. 
Qed.

Lemma parseFloat_integer c ip :
  Num.isDigit c = true -> JS.allChars Num.isDigit ip = true ->
  Num.parseFloat (String c ip)
  = Num.ofDecimal false (Num.digitsValue (String c ip) 0) 0.
Proof.
  intros Hc Hip. unfold Num.parseFloat.
  rewrite digit_not_space, digit_no_sign, digit_not_infinity by exact Hc.
  pose proof (spanDigits_all (String c ip) EmptyString) as Hspan.
  replace (String c ip +:+ EmptyString) with (String c ip) in Hspan.
  2:{ apply (append_nil_r (String c ip)). }
  rewrite Hspan; [|simpl; now rewrite Hc|exact I].
  cbv iota beta. rewrite <- (append_nil_r (String c ip)). reflexivity.
Qed.

Lemma allChars_app p s t :
  JS.allChars p s = true -> JS.allChars p t = true -> JS.allChars p (s +:+ t) = true.
Proof.
  intros Hs Ht. induction s as [|c s IH]; [exact Ht|].
  change (String c s +:+ t) with (String c (s +:+ t)).
  simpl in *. apply andb_prop in Hs as [Hc Hs]. now rewrite Hc, IH.
Qed.

(** A decimal text [digits.digits] whose value is a double is read as that
    double. *)
Lemma parseFloat_decimal_exact c ip fp z :
  isDigit c = true ->
  JS.allChars isDigit ip = true -> JS.allChars isDigit fp = true ->
  nonnegFinite z = true ->
  digitsValue (String c ip +:+ fp) 0 * 2 ^ 1074
  = units z * 10 ^ Z.of_nat (String.length fp) ->
  parseFloat (String c ip +:+ String "." fp) = z.
Proof.
  intros Hc Hip Hfp Hz Hv. rewrite parseFloat_plain by assumption.
  apply ofDecimal_exact; [|exact Hz|].
  - apply digitsValue_nonneg; [|lia].
    apply allChars_app; [|exact Hfp]. simpl. now rewrite Hc.
  - replace (Z.max (- Z.of_nat (String.length fp)) 0) with 0 by lia.
    replace (Z.max (- - Z.of_nat (String.length fp)) 0)
      with (Z.of_nat (String.length fp)) by lia.
    rewrite Z.pow_0_r. lia.
Qed.

(** A text of decimal digits whose value is a double is read as that
    double. *)
Lemma parseFloat_integer_exact c ip z :
  isDigit c = true -> JS.allChars isDigit ip = true ->
  nonnegFinite z = true ->
  digitsValue (String c ip) 0 * 2 ^ 1074 = units z ->
  parseFloat (String c ip) = z.
Proof.
  intros Hc Hip Hz Hv. rewrite parseFloat_integer by assumption.
  apply ofDecimal_exact; [|exact Hz|].
  - apply digitsValue_nonneg; [|lia]. simpl. now rewrite Hc.
  - change (Z.max 0 0) with 0. change (Z.max (- 0) 0) with 0.
    rewrite Z.pow_0_r. lia.
Qed.

(** When the amounts read are non-negative finite doubles and every
    partial sum is a double, the floating-point sum is the exact sum. *)
Lemma floatSum_exact (amounts : list string) :
  Forall (fun a => nonnegFinite (parseFloat a) = true) amounts ->
  Forall representable (runningSums 0 (map units (map parseFloat amounts))) ->
  nonnegFinite (floatSum amounts) = true
  /\ units (floatSum amounts) = sumZ (map units (map parseFloat amounts)).
Proof.
  intros Hfin Hrep. unfold floatSum.
  destruct (fold_add_exact (map parseFloat amounts) zero) as [Ha Hs].
  - reflexivity.
  - clear Hrep. induction Hfin; simpl; constructor; auto.
  - exact Hrep.
  - split; [exact Ha|]. rewrite Hs. reflexivity.
Qed.

Lemma units_inj x y :
  nonnegFinite x = true -> nonnegFinite y = true -> units x = units y -> x = y.
Proof.
  destruct x as [[|]| | |[|] mx ex]; try discriminate;
  destruct y as [[|]| | |[|] my ey]; try discriminate;
  simpl; intros Hx Hy Hu.
  - reflexivity.
  - pose proof (units_pos my ey (bounded_emin _ _ Hy)). lia.
  - pose proof (units_pos mx ex (bounded_emin _ _ Hx)). lia.
  - apply canonical_unique; auto. lia.
Qed.

Lemma sumZ_perm (l l' : list Z) : Permutation l l' -> sumZ l = sumZ l'.
Proof. unfold sumZ. induction 1; simpl; lia. Qed.

(** The amounts 10.5 and 20.25 are doubles and so is their sum: the total
    is 30.75 exactly (3075 hundredths, in units of [2^-1074]). *)
Example exact_sum_of_dyadic_amounts :
  units (floatSum ["10.5"; "20.25"]) * 100 = 3075 * 2 ^ 1074.
Proof.
  assert (Hfin : Forall (fun a => nonnegFinite (parseFloat a) = true)
                        ["10.5"; "20.25"]) by (repeat constructor).
  assert (Hrep : Forall representable
                   (runningSums 0 (map units (map parseFloat ["10.5"; "20.25"])))).
  { simpl. repeat constructor.
    - exists (parseFloat "10.5"). split; vm_compute; reflexivity.
    - exists (ofDecimal false 3075 (-2)). split; vm_compute; reflexivity. }
  destruct (floatSum_exact ["10.5"; "20.25"] Hfin Hrep) as [_ Hsum].
  rewrite Hsum. vm_compute. reflexivity.
Qed.

Example reads_ten_and_a_half :
  parseFloat "10.5" = S754_finite false 5910974510923776 (-49).
Proof.
  apply (parseFloat_decimal_exact "1" "0" "5"); vm_compute; reflexivity.
Qed.

End Doubles.

(** ** [getBatchSummary] *)

Section Summaries.
Import Batcher Spec.

Lemma assetCount_tally t a k :
  assetCount (tally t a) !! k
  = if String.eqb (asset a) k
    then Some (default 0%nat (assetCount t !! k) + 1)%nat
    else assetCount t !! k.
Proof.
  unfold tally. simpl. destruct (String.eqb_spec (asset a) k) as [->|Hne].
  - now rewrite lookup_insert_eq.
  - now rewrite lookup_insert_ne.
Qed.

Lemma assetCount_fold l : forall t k,
  assetCount (fold_left tally l t) !! k
  = match occurrences k l with
    | O => assetCount t !! k
    | S n => Some (default 0%nat (assetCount t !! k) + S n)%nat
    end.
Proof.
  induction l as [|a l IH]; intros t k; [reflexivity|].
  simpl fold_left. rewrite IH, assetCount_tally. unfold occurrences. simpl.
  destruct (String.eqb (asset a) k); simpl.
  - destruct (length _); simpl; f_equal; lia.
  - reflexivity.
Qed.

Lemma occurrences_perm k l l' :
  Permutation l l' -> occurrences k l = occurrences k l'.
Proof.
  unfold occurrences. induction 1 as [|x l l' _ IH|x y l|l l' l'' _ IH1 _ IH2]; simpl.
  - reflexivity.
  - destruct (String.eqb (asset x) k); simpl; congruence.
  - destruct (String.eqb (asset x) k), (String.eqb (asset y) k); reflexivity.
  - congruence.
Qed.

Lemma total_fold l : forall t,
  total (fold_left tally l t)
  = fold_left Num.add (map Num.parseFloat (map amount l)) (total t).
Proof. induction l as [|a l IH]; intros t; simpl; [reflexivity|]. now rewrite IH. Qed.

(** C7, as amended: [getBatchSummary] gives the same [recipientCount] and
    the same [assetBreakdown] (the same keys with the same counts) for an
    instruction list and for every permutation of it. The [totalAmount] is
    a floating-point sum taken in list order: it is the same for both when
    the amounts read are non-negative finite doubles and, in both orders,
    every partial sum is a double. *)
Theorem getBatchSummary_breakdown_perm (l l' : list PaymentInstruction) :
  Permutation l l' ->
  recipientCount (getBatchSummary l) = recipientCount (getBatchSummary l')
  /\ assetBreakdown (getBatchSummary l) = assetBreakdown (getBatchSummary l')
  /\ (Forall (fun a => Num.nonnegFinite (Num.parseFloat a) = true) (map amount l) ->
      Forall representable
        (runningSums 0 (map Num.units (map Num.parseFloat (map amount l)))) ->
      Forall representable
        (runningSums 0 (map Num.units (map Num.parseFloat (map amount l')))) ->
      totalAmount (getBatchSummary l) = totalAmount (getBatchSummary l')).
Proof.
  intros Hp. unfold getBatchSummary. simpl. split; [|split].
  - now apply Permutation_length.
  - apply map_eq. intros k.
    now rewrite !assetCount_fold, (occurrences_perm k l l' Hp).
  - intros Hfin Hrep Hrep'. rewrite !total_fold. simpl.
    assert (Hpa : Permutation (map amount l) (map amount l'))
      by now apply Permutation_map.
    assert (Hfin' : Forall (fun a => Num.nonnegFinite (Num.parseFloat a) = true)
                           (map amount l')).
    { now rewrite <- Hpa. }
    destruct (floatSum_exact _ Hfin Hrep) as [Hn Hs].
    destruct (floatSum_exact _ Hfin' Hrep') as [Hn' Hs'].
    unfold floatSum in *. f_equal. apply units_inj; auto.
    rewrite Hs, Hs'. apply sumZ_perm. now do 2 apply Permutation_map.
Qed.

Lemma getBatchSummary_breakdown_perm_witness :
  Permutation [Mock.pay Mock.alice "0.1"; Mock.pay Mock.bob "0.2"]
              [Mock.pay Mock.bob "0.2"; Mock.pay Mock.alice "0.1"]
  /\ recipientCount (getBatchSummary [Mock.pay Mock.alice "0.1"; Mock.pay Mock.bob "0.2"])
     = recipientCount (getBatchSummary [Mock.pay Mock.bob "0.2"; Mock.pay Mock.alice "0.1"])
  /\ assetBreakdown (getBatchSummary [Mock.pay Mock.alice "0.1"; Mock.pay Mock.bob "0.2"])
     = assetBreakdown (getBatchSummary [Mock.pay Mock.bob "0.2"; Mock.pay Mock.alice "0.1"]).
Proof.
  split; [apply perm_swap|].
  destruct (getBatchSummary_breakdown_perm
              [Mock.pay Mock.alice "0.1"; Mock.pay Mock.bob "0.2"]
              [Mock.pay Mock.bob "0.2"; Mock.pay Mock.alice "0.1"])
    as (Hcount & Hbreak & _); [apply perm_swap|].
  split; [exact Hcount | exact Hbreak].
Defined.

(** C7 fails for [totalAmount]: 0.1, 0.2, 0.3 summed in this order print
    0.6000000000000001, and in the reverse order 0.6. *)
Lemma getBatchSummary_total_order :
  Permutation
    [Mock.pay Mock.alice "0.1"; Mock.pay Mock.alice "0.2"; Mock.pay Mock.alice "0.3"]
    [Mock.pay Mock.alice "0.3"; Mock.pay Mock.alice "0.2"; Mock.pay Mock.alice "0.1"]
  /\ totalAmount (getBatchSummary
       [Mock.pay Mock.alice "0.1"; Mock.pay Mock.alice "0.2"; Mock.pay Mock.alice "0.3"])
     = "0.6000000000000001"
  /\ totalAmount (getBatchSummary
       [Mock.pay Mock.alice "0.3"; Mock.pay Mock.alice "0.2"; Mock.pay Mock.alice "0.1"])
     = "0.6".
Proof.
  split; [|split].
  - change [Mock.pay Mock.alice "0.3"; Mock.pay Mock.alice "0.2"; Mock.pay Mock.alice "0.1"]
      with (rev [Mock.pay Mock.alice "0.1"; Mock.pay Mock.alice "0.2";
                 Mock.pay Mock.alice "0.3"]).
    apply Permutation_rev.
  - unfold getBatchSummary, totalAmount. rewrite total_fold. vm_compute. reflexivity.
  - unfold getBatchSummary, totalAmount. rewrite total_fold. vm_compute. reflexivity.
Qed.

(** C6 fails: the amounts 0.1 and 0.2 (one fractional digit each) sum to
    0.30000000000000004, not to the decimal sum 0.3. *)
Lemma getBatchSummary_total_inexact :
  totalAmount (getBatchSummary [Mock.pay Mock.alice "0.1"; Mock.pay Mock.bob "0.2"])
  = "0.30000000000000004".
Proof.
  unfold getBatchSummary, totalAmount. rewrite total_fold. vm_compute. reflexivity.
Qed.

End Summaries.

(** ** The service: batch loop, validation, report *)

Section ServiceFacts.
Import JS Service.

Context {L : Type} `{LedgerClient L}.
Variable validate : PaymentInstruction -> Validator.ValidationResult.
Variable this : Config.

Lemma instructionOf_success h i : instructionOf (successResult h i) = i.
Proof. now destruct i. Qed.

Lemma instructionOf_failed msg i : instructionOf (failedResult msg i) = i.
Proof. now destruct i. Qed.

Lemma fold_pushSuccess h batch : forall st,
  fold_left (pushSuccess h) batch st
  = {| pushed := pushed st ++ map (successResult h) batch;
       sequenceNumber := sequenceNumber st;
       successCount := successCount st + length batch;
       failCount := failCount st |}.
Proof.
  induction batch as [|i batch IH]; intros [p q sc fc]; simpl.
  - now rewrite app_nil_r, Nat.add_0_r.
  - rewrite IH. simpl. rewrite <- app_assoc. simpl. f_equal. lia.
Qed.

Lemma fold_pushFailed msg batch : forall st,
  fold_left (pushFailed msg) batch st
  = {| pushed := pushed st ++ map (failedResult msg) batch;
       sequenceNumber := sequenceNumber st;
       successCount := successCount st;
       failCount := failCount st + length batch |}.
Proof.
  induction batch as [|i batch IH]; intros [p q sc fc]; simpl.
  - now rewrite app_nil_r, Nat.add_0_r.
  - rewrite IH. simpl. rewrite <- app_assoc. simpl. f_equal. lia.
Qed.

Lemma successesIn_success h batch :
  successesIn (map (successResult h) batch) = length batch.
Proof. unfold successesIn. induction batch; simpl; auto. Qed.

Lemma successesIn_failed msg batch :
  successesIn (map (failedResult msg) batch) = 0%nat.
Proof. unfold successesIn. induction batch; simpl; auto. Qed.

Lemma map_instructionOf_success h batch :
  map instructionOf (map (successResult h) batch) = batch.
Proof.
  induction batch as [|i batch IH]; simpl; [reflexivity|].
  now rewrite IH, instructionOf_success.
Qed.

Lemma map_instructionOf_failed msg batch :
  map instructionOf (map (failedResult msg) batch) = batch.
Proof.
  induction batch as [|i batch IH]; simpl; [reflexivity|].
  now rewrite IH, instructionOf_failed.
Qed.

Lemma acceptedIn_app evs evs' :
  acceptedIn (evs ++ evs') = (acceptedIn evs + acceptedIn evs')%nat.
Proof. unfold acceptedIn. now rewrite List.filter_app, length_app. Qed.

Lemma successesIn_app rs rs' :
  successesIn (rs ++ rs') = (successesIn rs + successesIn rs')%nat.
Proof. unfold successesIn. now rewrite List.filter_app, length_app. Qed.

Lemma advanced_failed msg batch evs st :
  acceptedIn evs = 0%nat ->
  advanced batch evs st (fold_left (pushFailed msg) batch st).
Proof.
  intros Hevs. rewrite fold_pushFailed. split; simpl.
  - rewrite Hevs. lia.
  - exists (map (failedResult msg) batch).
    rewrite map_instructionOf_failed, successesIn_failed, length_map.
    repeat split; lia.
Qed.

Lemma advanced_success h batch evs st :
  acceptedIn evs = 1%nat ->
  advanced batch evs st (bump (fold_left (pushSuccess h) batch st)).
Proof.
  intros Hevs. rewrite fold_pushSuccess. split; simpl.
  - rewrite Hevs. lia.
  - exists (map (successResult h) batch).
    rewrite map_instructionOf_success, successesIn_success, length_map.
    repeat split; lia.
Qed.

Lemma advanced_refl st : advanced [] [] st st.
Proof.
  split; [unfold acceptedIn; simpl; lia|]. exists []. rewrite app_nil_r.
  unfold successesIn. repeat split; simpl; lia.
Qed.

Lemma advanced_trans paid paid' evs evs' st st' st'' :
  advanced paid evs st st' -> advanced paid' evs' st' st'' ->
  advanced (paid ++ paid') (evs ++ evs') st st''.
Proof.
  intros [Hs (n & Hp & Hm & Hsc & Hfc)] [Hs' (n' & Hp' & Hm' & Hsc' & Hfc')].
  split.
  - rewrite acceptedIn_app. lia.
  - exists (n ++ n').
    rewrite map_app, successesIn_app, length_app, Hp', Hp, Hm, Hm', app_assoc.
    repeat split; lia.
Qed.

(** One turn of the batch loop never throws; the ledger sees at most one
    event, the submission of the batch. Either the submission is accepted,
    every instruction of the batch is reported [success] and the counter
    moves by one, or every instruction is reported [failed] and the
    counter stays. *)
Lemma processBatch_cases st batch w :
  exists st' w' evs,
    processBatch this st batch w = (Ok st', w')
    /\ trace w' = trace w ++ evs
    /\ Forall (fun ev => exists tx r, ev = Submitted tx r) evs
    /\ ((acceptedIn evs = 1%nat
         /\ exists h, st' = bump (fold_left (pushSuccess h) batch st))
        \/ (acceptedIn evs = 0%nat
            /\ exists msg, st' = fold_left (pushFailed msg) batch st)).
Proof.
  unfold processBatch, buildTransaction, submitTransaction, serverSubmit.
  unfold tryCatch, bind, check, lift, ret.
  destruct (builderThrows _ _) as [e|].
  { eexists _, _, []. rewrite app_nil_r. repeat split; [constructor|].
    right. split; [reflexivity | eauto]. }
  destruct (addOperations batch []) as [ops|e].
  2:{ eexists _, _, []. rewrite app_nil_r. repeat split; [constructor|].
      right. split; [reflexivity | eauto]. }
  destruct (buildThrows _) as [e|].
  { eexists _, _, []. rewrite app_nil_r. repeat split; [constructor|].
    right. split; [reflexivity | eauto]. }
  destruct (signThrows _) as [e|].
  { eexists _, _, []. rewrite app_nil_r. repeat split; [constructor|].
    right. split; [reflexivity | eauto]. }
  destruct (submit (ledger w) _) as [[resp|e] l'] eqn:Hsub.
  - destruct (successful resp) eqn:Hacc.
    + eexists _, _, [Submitted _ (Ok resp)].
      split; [reflexivity|]. split; [reflexivity|].
      split; [repeat constructor; eauto|].
      left. unfold acceptedIn. simpl. rewrite Hacc. split; [reflexivity | eauto].
    + eexists _, _, [Submitted _ (Ok resp)].
      split; [reflexivity|]. split; [reflexivity|].
      split; [repeat constructor; eauto|].
      right. unfold acceptedIn. simpl. rewrite Hacc. split; [reflexivity | eauto].
  - eexists _, _, [Submitted _ (Throw e)].
    split; [reflexivity|]. split; [reflexivity|].
    split; [repeat constructor; eauto|].
    right. split; [reflexivity | eauto].
Qed.

Lemma processBatch_spec st batch w :
  exists st' w' evs,
    processBatch this st batch w = (Ok st', w')
    /\ trace w' = trace w ++ evs
    /\ (acceptedIn evs <= 1)%nat
    /\ Forall (fun ev => exists tx r, ev = Submitted tx r) evs
    /\ advanced batch evs st st'.
Proof.
  destruct (processBatch_cases st batch w)
    as (st' & w' & evs & E & T & F & [[A [h ->]]|[A [msg ->]]]);
    eexists _, w', evs; (split; [exact E|]); (split; [exact T|]);
    (split; [lia|]); (split; [exact F|]).
  - now apply advanced_success.
  - now apply advanced_failed.
Qed.

(** The whole loop: it reaches its end whatever the outcomes, and reports
    on every instruction of every batch, in order. *)
Lemma forOf_processBatch_spec batches : forall st w,
  exists st' w' evs,
    forOf (processBatch this) batches st w = (Ok st', w')
    /\ trace w' = trace w ++ evs
    /\ (acceptedIn evs <= length batches)%nat
    /\ Forall (fun ev => exists tx r, ev = Submitted tx r) evs
    /\ advanced (concat batches) evs st st'.
Proof.
  induction batches as [|batch batches IH]; intros st w; simpl.
  - exists st, w, []. rewrite app_nil_r.
    split; [reflexivity|]. split; [reflexivity|].
    split; [unfold acceptedIn; simpl; lia|]. split; [constructor|].
    apply advanced_refl.
  - destruct (processBatch_spec st batch w) as (st1 & w1 & evs1 & E1 & T1 & A1 & F1 & P1).
    destruct (IH st1 w1) as (st2 & w2 & evs2 & E2 & T2 & A2 & F2 & P2).
    exists st2, w2, (evs1 ++ evs2). unfold bind at 1. rewrite E1, E2.
    split; [reflexivity|]. split; [now rewrite T2, T1, app_assoc|].
    split; [rewrite acceptedIn_app; lia|]. split; [now apply Forall_app|].
    now apply advanced_trans with st1.
Qed.

(** C2: in the batch loop of [submitBatch], a batch whose submission
    succeeds (every instruction reported [success]) moves the sequence
    counter by exactly 1 and a batch that fails (rejected by the ledger,
    failed in transport, or not built; every instruction reported
    [failed]) leaves it unchanged, from any state of the loop; the
    loop, started in any state, runs to its end and leaves the counter at
    its starting value plus the number of accepted submissions; so a run
    that reaches the end of the loop ends with the loaded value plus the
    number of successful batches. *)
Theorem sequence_counter_counts_successes :
  (forall st batch w, exists st' w',
      processBatch this st batch w = (Ok st', w')
      /\ ((sequenceNumber st' = sequenceNumber st + 1
           /\ exists h, pushed st' = pushed st ++ map (successResult h) batch)
          \/ (sequenceNumber st' = sequenceNumber st
              /\ exists msg, pushed st' = pushed st ++ map (failedResult msg) batch)))
  /\ (forall batches st w, exists st' w' evs,
        forOf (processBatch this) batches st w = (Ok st', w')
        /\ trace w' = trace w ++ evs
        /\ (acceptedIn evs <= length batches)%nat
        /\ sequenceNumber st' = sequenceNumber st + Z.of_nat (acceptedIn evs))
  /\ (forall instructions w batches st w',
        runBatches validate this instructions w = (Ok (batches, st), w') ->
        exists loaded l1 evs,
          loadAccount (ledger w) (publicKey this) = (Ok loaded, l1)
          /\ trace w' = trace w ++ LoadedAccount (publicKey this) :: evs
          /\ sequenceNumber st = loaded + Z.of_nat (acceptedIn evs)).
Proof.
  split; [|split].
  - intros st batch w.
    destruct (processBatch_cases st batch w)
      as (st' & w' & evs & E & _ & _ & [[_ [h ->]]|[_ [msg ->]]]);
      eexists _, w'; (split; [exact E|]).
    + left. rewrite fold_pushSuccess. simpl. eauto.
    + right. rewrite fold_pushFailed. simpl. eauto.
  - intros batches st w.
    destruct (forOf_processBatch_spec batches st w)
      as (st' & w' & evs & E & T & A & _ & [Hseq _]).
    exists st', w', evs. auto.
  - intros instructions w batches st w'.
    unfold runBatches, serverLoadAccount, bind, lift, ret.
    destruct (loadAccount (ledger w) (publicKey this)) as [[loaded|e] l1];
      [|discriminate].
    destruct (createPaymentBatches validate this instructions) as [bs|e];
      [|discriminate].
    destruct (forOf_processBatch_spec bs (start loaded)
                {| ledger := l1;
                   trace := trace w ++ [LoadedAccount (publicKey this)] |})
      as (st1 & w1 & evs & E & T & _ & _ & [Hseq _]).
    rewrite E. intros [= <- <- <-].
    exists loaded, l1, evs. split; [reflexivity|]. split; [|exact Hseq].
    rewrite T. simpl. now rewrite <- app_assoc.
Qed.

(** *** Validation inside [createPaymentBatches] *)

Lemma partition_valid l : forall bs cur,
  (forall i, In i l -> Validator.valid (validate i) = true) ->
  exists bs' cur',
    partition validate this l bs cur = Ok (bs', cur')
    /\ concat bs' ++ cur' = concat bs ++ cur ++ l.
Proof.
  induction l as [|a l IH]; intros bs cur Hv; simpl.
  - exists bs, cur. now rewrite app_nil_r.
  - rewrite (Hv a) by now left. simpl.
    destruct (Z.of_nat (length (cur ++ [a])) >=? maxOperationsPerTransaction this).
    + destruct (IH (bs ++ [cur ++ [a]]) []) as (bs' & cur' & E & C).
      { intros i Hi. apply Hv. now right. }
      exists bs', cur'. split; [exact E|].
      rewrite C, concat_app. simpl. now rewrite app_nil_r, <- !app_assoc.
    + destruct (IH bs (cur ++ [a])) as (bs' & cur' & E & C).
      { intros i Hi. apply Hv. now right. }
      exists bs', cur'. split; [exact E|].
      rewrite C. now rewrite <- !app_assoc.
Qed.

Lemma createPaymentBatches_valid l :
  (forall i, In i l -> Validator.valid (validate i) = true) ->
  exists batches,
    createPaymentBatches validate this l = Ok batches /\ concat batches = l.
Proof.
  intros Hv. unfold createPaymentBatches.
  destruct (partition_valid l [] [] Hv) as (bs & cur & E & C). rewrite E.
  simpl in C. destruct cur as [|c cur]; simpl.
  - exists bs. split; [reflexivity|]. now rewrite app_nil_r in C.
  - exists (bs ++ [c :: cur]). split; [reflexivity|].
    rewrite concat_app. simpl. now rewrite app_nil_r.
Qed.

Lemma partition_first_invalid pre x post : forall bs cur,
  (forall i, In i pre -> Validator.valid (validate i) = true) ->
  Validator.valid (validate x) = false ->
  partition validate this (pre ++ x :: post) bs cur
  = Throw (Error ("Invalid payment instruction for " +:+ address x +:+ ": "
                  +:+ showOpt (Validator.error (validate x)))).
Proof.
  induction pre as [|a pre IH]; intros bs cur Hv Hx; simpl.
  - now rewrite Hx.
  - rewrite (Hv a) by now left. simpl.
    destruct (_ >=? _); apply IH; auto; intros i Hi; apply Hv; now right.
Qed.

Lemma first_invalid l :
  (exists i, In i l /\ Validator.valid (validate i) = false) ->
  exists pre x post,
    l = pre ++ x :: post
    /\ (forall i, In i pre -> Validator.valid (validate i) = true)
    /\ Validator.valid (validate x) = false.
Proof.
  induction l as [|a l IH]; intros (i & Hi & Hbad); [destruct Hi|].
  destruct (Validator.valid (validate a)) eqn:Ha.
  - destruct Hi as [->|Hi]; [congruence|].
    destruct IH as (pre & x & post & -> & Hpre & Hx); [eauto|].
    exists (a :: pre), x, post. split; [reflexivity|]. split; [|exact Hx].
    intros j [<-|Hj]; auto.
  - exists [], a, l. split; [reflexivity|]. split; [intros j []|exact Ha].
Qed.

(** C5, as amended: [createPaymentBatches] validates the instructions in
    list order and stops at the first one the validator rejects: it throws
    one error, which names that instruction and its reason only, whatever
    comes after it in the list. *)
Theorem createPaymentBatches_stops_at_first_invalid
    (pre : list PaymentInstruction) (x : PaymentInstruction)
    (post : list PaymentInstruction) :
  (forall i, In i pre -> Validator.valid (validate i) = true) ->
  Validator.valid (validate x) = false ->
  createPaymentBatches validate this (pre ++ x :: post)
  = Throw (Error ("Invalid payment instruction for " +:+ address x +:+ ": "
                  +:+ showOpt (Validator.error (validate x)))).
Proof.
  intros Hpre Hx. unfold createPaymentBatches.
  now rewrite (partition_first_invalid pre x post [] [] Hpre Hx).
Qed.

Lemma partition_agrees l : forall done cur k,
  (forall i, In i l -> Validator.valid (validate i) = true) ->
  partition validate this l (map Batcher.payments done) cur
  = Ok (map Batcher.payments
          (Batcher.batches
             (fold_left (Batcher.step (maxOperationsPerTransaction this)) l
                {| Batcher.batches := done; Batcher.currentBatch := cur;
                   Batcher.nextIndex := k |})),
        Batcher.currentBatch
          (fold_left (Batcher.step (maxOperationsPerTransaction this)) l
             {| Batcher.batches := done; Batcher.currentBatch := cur;
                Batcher.nextIndex := k |})).
Proof.
  induction l as [|a l IH]; intros done cur k Hv; simpl; [reflexivity|].
  rewrite (Hv a) by now left. simpl. unfold Batcher.step at 2 4. simpl.
  assert (Hl : forall i, In i l -> Validator.valid (validate i) = true)
    by (intros i Hi; apply Hv; now right).
  destruct (Z.of_nat (length (cur ++ [a])) >=? maxOperationsPerTransaction this).
  - replace (map Batcher.payments done ++ [cur ++ [a]])
      with (map Batcher.payments
              (done ++ [ {| Batcher.transactionIndex := k;
                            Batcher.payments := cur ++ [a] |} ]))
      by (now rewrite map_app).
    now apply IH.
  - now apply IH.
Qed.

(** On a valid list the private partition of the service is the partition
    of [createBatches], without the indices. *)
Theorem createPaymentBatches_agrees (instructions : list PaymentInstruction) :
  (forall i, In i instructions -> Validator.valid (validate i) = true) ->
  createPaymentBatches validate this instructions
  = Ok (map Batcher.payments
          (Batcher.createBatches instructions (maxOperationsPerTransaction this))).
Proof.
  intros Hv. unfold createPaymentBatches, Batcher.createBatches.
  change (partition validate this instructions [] [])
    with (partition validate this instructions (map Batcher.payments []) []).
  rewrite (partition_agrees instructions [] [] 0 Hv).
  fold Batcher.initial.
  destruct (0 <? length _)%nat; [|reflexivity].
  now rewrite map_app.
Qed.

(** C3: when every instruction is valid and the account loads,
    [submitBatch] returns a report with one result per instruction, in the
    order of the instruction list, each tagged [success] or [failed],
    whatever the outcomes of the submissions; the two counts of the summary
    add up to the number of instructions. *)
Theorem submitBatch_reports_every_instruction
    (instructions : list PaymentInstruction) (w : World L) (loaded : Z) (l1 : L) :
  (forall i, In i instructions -> Validator.valid (validate i) = true) ->
  loadAccount (ledger w) (publicKey this) = (Ok loaded, l1) ->
  exists r w',
    submitBatch validate this instructions w = (Ok r, w')
    /\ map instructionOf (results r) = instructions
    /\ totalRecipients r = length instructions
    /\ Summary.successful (summary r) = successesIn (results r)
    /\ (Summary.successful (summary r) + Summary.failed (summary r))%nat = length instructions.
Proof.
  intros Hv Hload.
  destruct (createPaymentBatches_valid instructions Hv) as (batches & Hcpb & Hcat).
  unfold submitBatch, runBatches, newDate, serverLoadAccount, bind, lift, ret.
  rewrite Hload, Hcpb.
  destruct (forOf_processBatch_spec batches (start loaded)
              {| ledger := l1; trace := trace w ++ [LoadedAccount (publicKey this)] |})
    as (st & w' & evs & E & _ & _ & _ & [_ (news & Hp & Hm & Hsc & Hfc)]).
  rewrite E. eexists _, _. split; [reflexivity|]. simpl in *.
  rewrite Hp, Hm, Hcat, Hsc.
  assert (length news = length instructions)
    by (rewrite <- Hcat, <- Hm; symmetry; apply length_map).
  repeat split; lia.
Qed.

(** C4, as amended: when some instruction is invalid, [submitBatch] throws
    and submits nothing: the only interaction with the ledger is the load of
    the signing account that opens the run. *)
Theorem invalid_input_submits_nothing
    (instructions : list PaymentInstruction) (w : World L) :
  (exists i, In i instructions /\ Validator.valid (validate i) = false) ->
  exists e w',
    submitBatch validate this instructions w = (Throw e, w')
    /\ trace w' = trace w ++ [LoadedAccount (publicKey this)].
Proof.
  intros Hbad.
  destruct (first_invalid instructions Hbad) as (pre & x & post & -> & Hpre & Hx).
  unfold submitBatch, runBatches, newDate, serverLoadAccount, bind, lift, ret.
  destruct (loadAccount (ledger w) (publicKey this)) as [[loaded|e] l1].
  - unfold createPaymentBatches.
    rewrite (partition_first_invalid pre x post [] [] Hpre Hx).
    eexists _, _. split; reflexivity.
  - eexists _, _. split; reflexivity.
Qed.

Lemma floatSum_fold (l : list PaymentInstruction) :
  fold_left (fun sum inst => Num.add sum (Num.parseFloat (amount inst))) l Num.zero
  = Spec.floatSum (map amount l).
Proof.
  unfold Spec.floatSum. generalize Num.zero.
  induction l as [|a l IH]; intros z; simpl; [reflexivity|]. apply IH.
Qed.

(** C6, as amended: both totals are binary floating-point sums: the
    [totalAmount] of [getBatchSummary] and the one of [submitBatch] are the
    amounts read by [parseFloat], added from left to right as IEEE-754
    doubles and printed by [Number.prototype.toString]. An amount written
    in decimal digits, with or without a fraction, whose value is a double
    is read exactly; when the amounts read are non-negative finite doubles
    and every partial sum is a double, the total is the exact sum. The
    amounts 10.5 and 20.25 give exactly 30.75. *)
Theorem totals_are_float_sums (instructions : list PaymentInstruction) :
  Batcher.totalAmount (Batcher.getBatchSummary instructions)
  = Num.toString (Spec.floatSum (map amount instructions))
  /\ (forall w r w',
        submitBatch validate this instructions w = (Ok r, w') ->
        totalAmount r = Num.toString (Spec.floatSum (map amount instructions)))
  /\ (forall c ip fp z,
        Num.isDigit c = true ->
        allChars Num.isDigit ip = true -> allChars Num.isDigit fp = true ->
        Num.nonnegFinite z = true ->
        Num.digitsValue (String c ip +:+ fp) 0 * 2 ^ 1074
        = Num.units z * 10 ^ Z.of_nat (String.length fp) ->
        Num.parseFloat (String c ip +:+ String "." fp) = z)
  /\ (forall c ip z,
        Num.isDigit c = true -> allChars Num.isDigit ip = true ->
        Num.nonnegFinite z = true ->
        Num.digitsValue (String c ip) 0 * 2 ^ 1074 = Num.units z ->
        Num.parseFloat (String c ip) = z)
  /\ (Forall (fun a => Num.nonnegFinite (Num.parseFloat a) = true)
             (map amount instructions) ->
      Forall Spec.representable
             (Spec.runningSums 0
                (map Num.units (map Num.parseFloat (map amount instructions)))) ->
      Num.nonnegFinite (Spec.floatSum (map amount instructions)) = true
      /\ Num.units (Spec.floatSum (map amount instructions))
         = Spec.sumZ (map Num.units (map Num.parseFloat (map amount instructions))))
  /\ Num.toString (Spec.floatSum ["10.5"; "20.25"]) = "30.75".
Proof.
  split; [|split; [|split; [|split; [|split]]]].
  - unfold Batcher.getBatchSummary. simpl. now rewrite total_fold.
  - intros w r w'. unfold submitBatch, newDate, bind, ret.
    destruct (runBatches validate this instructions _) as [[[batches st]|e] w1];
      [|discriminate].
    intros [= <- _]. simpl. now rewrite floatSum_fold.
  - intros c ip fp z. apply parseFloat_decimal_exact.
  - intros c ip z. apply parseFloat_integer_exact.
  - apply floatSum_exact.
  - vm_compute. reflexivity.
Qed.

End ServiceFacts.

(** *** The service on the scripted ledger *)

Section ServiceExamples.
Import JS Service Mock.

Local Abbreviation V := Validator.validatePaymentInstruction.

Lemma createPaymentBatches_stops_at_first_invalid_witness :
  createPaymentBatches V (service 2)
    ([pay alice "100"] ++ pay bob "-50" :: [pay "INVALID" "1"])
  = Throw (Error ("Invalid payment instruction for " +:+ bob +:+ ": "
                  +:+ "Invalid amount: must be a positive number")).
Proof.
  apply (createPaymentBatches_stops_at_first_invalid V (service 2)
           [pay alice "100"] (pay bob "-50") [pay "INVALID" "1"]).
  - intros i [<-|[]]. reflexivity.
  - reflexivity.
Defined.

(** C5 fails: of two invalid instructions only the first is reported. *)
Lemma createPaymentBatches_reports_one :
  createPaymentBatches V (service 2) [pay "INVALID" "100"; pay bob "-50"]
  = Throw (Error "Invalid payment instruction for INVALID: Invalid recipient address")
  /\ Validator.valid (V (pay bob "-50")) = false.
Proof. split; reflexivity. Qed.

Lemma createPaymentBatches_agrees_witness :
  createPaymentBatches V (service 2) [pay alice "100"; pay bob "50"; pay alice "75"]
  = Ok (map Batcher.payments
          (Batcher.createBatches [pay alice "100"; pay bob "50"; pay alice "75"] 2)).
Proof.
  apply (createPaymentBatches_agrees V (service 2)
           [pay alice "100"; pay bob "50"; pay alice "75"]).
  intros i [<-|[<-|[<-|[]]]]; reflexivity.
Defined.

Lemma submitBatch_reports_every_instruction_witness :
  exists r w',
    submitBatch V (service 2) [pay alice "100"; pay bob "50"; pay alice "75"]
      (world 7 [false; true]) = (Ok r, w')
    /\ map instructionOf (results r) = [pay alice "100"; pay bob "50"; pay alice "75"]
    /\ totalRecipients r = 3%nat
    /\ Summary.successful (summary r) = successesIn (results r)
    /\ (Summary.successful (summary r) + Summary.failed (summary r))%nat = 3%nat.
Proof.
  apply (submitBatch_reports_every_instruction V (service 2)
           [pay alice "100"; pay bob "50"; pay alice "75"] (world 7 [false; true])
           7 {| accountSequence := 7; script := [false; true] |}).
  - intros i [<-|[<-|[<-|[]]]]; reflexivity.
  - reflexivity.
Defined.

Lemma invalid_input_submits_nothing_witness :
  exists e w',
    submitBatch V (service 2) [pay alice "100"; pay bob "-50"] (world 7 [true; true])
    = (Throw e, w')
    /\ trace w' = trace (world 7 [true; true]) ++ [LoadedAccount (publicKey (service 2))].
Proof.
  apply (invalid_input_submits_nothing V (service 2)
           [pay alice "100"; pay bob "-50"] (world 7 [true; true])).
  exists (pay bob "-50"). split; [right; left; reflexivity | reflexivity].
Defined.

(** C4 fails: the invalid instruction is caught after the signing account
    was loaded from the ledger. *)
Lemma invalid_input_after_account_load :
  submitBatch V (service 2) [pay alice "100"; pay bob "-50"] (world 7 [true; true])
  = (Throw (Error ("Invalid payment instruction for " +:+ bob
                   +:+ ": Invalid amount: must be a positive number")),
     {| ledger := {| accountSequence := 7; script := [true; true] |};
        trace := [LoadedAccount signer] |}).
Proof. reflexivity. Qed.

(** The two end-to-end scenarios of the specification. *)
Example three_instructions_two_batches :
  exists st w',
    runBatches V (service 2) [pay alice "100"; pay bob "50"; pay alice "75"]
      (world 7 [true; true])
    = (Ok ([[pay alice "100"; pay bob "50"]; [pay alice "75"]], st), w')
    /\ sequenceNumber st = 9
    /\ map instructionOf (pushed st) = [pay alice "100"; pay bob "50"; pay alice "75"]
    /\ map PaymentResult.status (pushed st) = [success; success; success].
Proof. eexists _, _. split; [reflexivity|]. repeat split. Qed.

Example first_batch_fails_second_succeeds :
  exists st w',
    runBatches V (service 2) [pay alice "100"; pay bob "50"; pay alice "75"]
      (world 7 [false; true])
    = (Ok ([[pay alice "100"; pay bob "50"]; [pay alice "75"]], st), w')
    /\ sequenceNumber st = 8
    /\ map PaymentResult.status (pushed st) = [failed; failed; success].
Proof. eexists _, _. split; [reflexivity|]. repeat split. Qed.

End ServiceExamples.

(** ** [parseAsset] *)

Section Assets.
Import Batcher Spec.

Lemma split_shape sep s :
  match JS.split sep s with
  | [] => False
  | [_] => contains sep s = false
  | _ :: _ :: _ => contains sep s = true
  end.
Proof.
  induction s as [|c s IH]; simpl; [reflexivity|].
  destruct (Ascii.eqb c sep); simpl.
  - destruct (JS.split sep s); [destruct IH | reflexivity].
  - destruct (JS.split sep s) as [|f [|g r]]; [destruct IH | exact IH | exact IH].
Qed.

Lemma split_no_sep sep s : contains sep s = false -> JS.split sep s = [s].
Proof.
  induction s as [|c s IH]; simpl; [reflexivity|].
  destruct (Ascii.eqb c sep); simpl; [discriminate|].
  intros Hs. now rewrite (IH Hs).
Qed.

Lemma split_first_field sep c rest :
  contains sep c = false ->
  JS.split sep (c +:+ String sep rest) = c :: JS.split sep rest.
Proof.
  induction c as [|a c IH]; simpl.
  - intros _. now rewrite Ascii.eqb_refl.
  - destruct (Ascii.eqb a sep); simpl; [discriminate|].
    intros Hc. now rewrite (IH Hc).
Qed.

Lemma contains_sep_app sep c rest : contains sep (c +:+ String sep rest) = true.
Proof.
  induction c as [|a c IH]; simpl.
  - now rewrite Ascii.eqb_refl.
  - rewrite IH. apply orb_true_r.
Qed.

(** C8, as amended: [parseAsset] returns the native asset (code XLM, issuer
    [null]) exactly for the string XLM, and [buildTransaction] builds the
    native asset of the ledger exactly in that case. For an asset string
    [code:issuer] it returns that code with that issuer. For any string
    other than XLM the issuer is never [null]: it is a string when the
    asset string holds a colon, and missing ([undefined]) when it holds
    none. *)
Theorem parseAsset_native_iff (s : string) :
  (s = "XLM" -> parseAsset s = {| code := "XLM"; issuer := issuer_null |})
  /\ (issuer (parseAsset s) = issuer_null <-> s = "XLM")
  /\ (Service.stellarAsset (parseAsset s) = Service.native <-> s = "XLM")
  /\ (forall c i,
        contains ":" c = false -> contains ":" i = false ->
        s = c +:+ ":" +:+ i ->
        parseAsset s = {| code := c; issuer := issuer_string i |})
  /\ (s <> "XLM" ->
      ((exists i, issuer (parseAsset s) = issuer_string i) <-> contains ":" s = true)
      /\ (issuer (parseAsset s) = issuer_undefined <-> contains ":" s = false)).
Proof.
  unfold parseAsset, Service.stellarAsset.
  destruct (String.eqb_spec s "XLM") as [->|Hne].
  - repeat split; auto; try congruence.
    intros c i _ _ Hs.
    assert (Hc : contains ":" "XLM" = true)
      by (rewrite Hs; apply (contains_sep_app ":" c i)).
    discriminate Hc.
  - pose proof (split_shape ":" s) as Hs.
    split; [congruence|].
    split; [|split; [|split]].
    + destruct (JS.split ":" s) as [|c [|i r]]; [destruct Hs| |]; simpl;
        split; congruence.
    + destruct (JS.split ":" s) as [|c [|i r]]; [destruct Hs| |]; simpl;
        split; congruence.
    + intros c i Hc Hi ->. clear Hs.
      change (c +:+ ":" +:+ i) with (c +:+ String ":" i).
      now rewrite (split_first_field ":" c i Hc), (split_no_sep ":" i Hi).
    + intros _.
      destruct (JS.split ":" s) as [|c [|i r]]; [destruct Hs| |]; simpl; rewrite Hs.
      * repeat split; try congruence; try discriminate.
        intros [i Hi]. discriminate.
      * repeat split; try congruence; try discriminate; eauto.
Qed.

(** C8 fails: the asset string USDC is parsed to the code USDC, not native,
    with no issuer. *)
Lemma parseAsset_issued_without_issuer : ~ assetInvariant (parseAsset "USDC").
Proof.
  intros [_ Hissued]. destruct Hissued as [i Hi]; [discriminate|].
  vm_compute in Hi. discriminate.
Qed.

End Assets.

(** ** [parseCSV] *)

Section Csv.
Import JS Parser.

Lemma parseRows_throws a m s rows : forall i acc e,
  parseRows a m s rows i acc = Throw e ->
  exists row, e = Error (insufficientColumns row).
Proof.
  induction rows as [|row rows IH]; intros i acc e; simpl; [discriminate|].
  destruct (String.length (trim row) =? 0)%nat; [apply IH|].
  destruct (_ <? _); [|apply IH].
  intros [= <-]. eauto.
Qed.

(** C10: [parseCSV] never returns an empty list: it returns at least one
    instruction, or throws one of its four errors (too few lines, a missing
    column, a row with too few columns, no data row). *)
Theorem parseCSV_never_empty (content : string) :
  match parseCSV content with
  | Ok instructions => instructions <> []
  | Throw e =>
      e = Error tooFewLines
      \/ e = Error missingColumns
      \/ (exists row, e = Error (insufficientColumns row))
      \/ e = Error noInstructions
  end.
Proof.
  unfold parseCSV.
  destruct (length _ <? 2)%nat; [now left|].
  destruct (_ || _); [now right; left|].
  destruct (parseRows _ _ _ _ _ _) as [instructions|e] eqn:Hrows.
  - destruct instructions; simpl; [now right; right; right | discriminate].
  - right; right; left. eapply parseRows_throws. exact Hrows.
Qed.

End Csv.

(** ** The test suite of the repository, replayed on the model *)

Section RepositoryTests.
Import JS Batcher Parser.

Local Abbreviation samplePayments :=
  [ {| address := "GBBD47UZM2HN7D7XZIZVG4KVAUC36THN5BES6RMNNOK5TUNXAUCVMAKER";
       amount := "100"; asset := "XLM" |};
    {| address := "GBJCHUKZMTFSLOMNC7P4TS4VJJBTCYL3AEYZ7R37ZJNHYQM7MDEBC67";
       amount := "50"; asset := "XLM" |};
    {| address := "GCNY5OXYSY4FKHOPT2SPOQZAOEIGKKAOMWCUT5LPYYCVYHIOW7MFTD";
       amount := "75"; asset := "XLM" |} ].

Local Abbreviation usdc :=
  "USDC:GBUQWP3BOUZX34ULNQG23RQ6F4BWFIDBPPK7B7ILALX7DNZY5GJUSYM".

Example creates_single_batch_below_max :
  map (fun b => length (payments b)) (createBatches samplePayments 100) = [3%nat].
Proof. reflexivity. Qed.

Example creates_multiple_batches :
  map (fun b => length (payments b)) (createBatches samplePayments 2) = [2%nat; 1%nat].
Proof. reflexivity. Qed.

Example assigns_transaction_indices :
  map transactionIndex (createBatches samplePayments 1) = [0; 1; 2].
Proof. reflexivity. Qed.

Example parses_native_asset :
  parseAsset "XLM" = {| code := "XLM"; issuer := issuer_null |}.
Proof. reflexivity. Qed.

Example parses_issued_asset :
  parseAsset usdc
  = {| code := "USDC";
       issuer := issuer_string
                   "GBUQWP3BOUZX34ULNQG23RQ6F4BWFIDBPPK7B7ILALX7DNZY5GJUSYM" |}.
Proof. reflexivity. Qed.

Example calculates_total_amount :
  totalAmount (getBatchSummary samplePayments) = "225"
  /\ recipientCount (getBatchSummary samplePayments) = 3%nat
  /\ assetBreakdown (getBatchSummary samplePayments) !! "XLM" = Some 3%nat.
Proof. vm_compute. repeat split. Qed.

Example handles_multiple_assets :
  let summary :=
    getBatchSummary
      [ {| address := "GBBD47UZM2HN7D7XZIZVG4KVAUC36THN5BES6RMNNOK5TUNXAUCVMAKER";
           amount := "100"; asset := "XLM" |};
        {| address := "GBJCHUKZMTFSLOMNC7P4TS4VJJBTCYL3AEYZ7R37ZJNHYQM7MDEBC67";
           amount := "50"; asset := usdc |} ] in
  assetBreakdown summary !! "XLM" = Some 1%nat
  /\ assetBreakdown summary !! usdc = Some 1%nat.
Proof. vm_compute. repeat split. Qed.

Example calculates_total_with_decimal_amounts :
  totalAmount
    (getBatchSummary
       [ {| address := "GBBD47UZM2HN7D7XZIZVG4KVAUC36THN5BES6RMNNOK5TUNXAUCVMAKER";
            amount := "10.5"; asset := "XLM" |};
         {| address := "GBJCHUKZMTFSLOMNC7P4TS4VJJBTCYL3AEYZ7R37ZJNHYQM7MDEBC67";
            amount := "20.25"; asset := "XLM" |} ])
  = "30.75".
Proof. vm_compute. reflexivity. Qed.

Local Abbreviation nl := (String newline EmptyString).

Example parses_valid_csv :
  parseCSV ("address,amount,asset" +:+ nl +:+ "GBBD47UZ,100,XLM")
  = Ok [ {| address := "GBBD47UZ"; amount := "100"; asset := "XLM" |} ].
Proof. reflexivity. Qed.

Example handles_whitespace_in_csv :
  parseCSV ("address, amount, asset" +:+ nl +:+ "GBBD47UZ, 100, XLM")
  = Ok [ {| address := "GBBD47UZ"; amount := "100"; asset := "XLM" |} ].
Proof. reflexivity. Qed.

Example skips_empty_lines :
  parseCSV ("address,amount,asset" +:+ nl +:+ "GBBD47UZ,100,XLM" +:+ nl +:+ nl
            +:+ "GBJCHUKZ,50,XLM")
  = Ok [ {| address := "GBBD47UZ"; amount := "100"; asset := "XLM" |};
         {| address := "GBJCHUKZ"; amount := "50"; asset := "XLM" |} ].
Proof. reflexivity. Qed.

Example throws_without_required_columns :
  parseCSV ("address,amount" +:+ nl +:+ "GBBD47UZ,100") = Throw (Error missingColumns).
Proof. reflexivity. Qed.

Example throws_on_empty_data :
  parseCSV ("address,amount,asset" +:+ nl) = Throw (Error tooFewLines).
Proof. reflexivity. Qed.

End RepositoryTests.

(** * More of the code *)

(** ** [createBatches]: order, sizes, composition *)

Section BatchShapes.
Import Batcher Notions.

Lemma concat_singletons {A} (l : list A) : concat (map (fun x => [x]) l) = l.
Proof. induction l as [|x l IH]; simpl; congruence. Qed.

Lemma nonempty_of_singletons (bs : list Batch) (l : list PaymentInstruction) :
  map payments bs = map (fun x => [x]) l -> Forall (fun b => payments b <> []) bs.
Proof.
  revert l. induction bs as [|b bs IH]; intros [|x l] Hm; simpl in Hm;
    try discriminate; constructor.
  - injection Hm as Hb _. now rewrite Hb.
  - injection Hm as _ Hbs. now apply (IH l).
Qed.

Lemma nonempty_of_full m (bs : list Batch) :
  1 <= m ->
  Forall (fun b => Z.of_nat (length (payments b)) = m) bs ->
  Forall (fun b => payments b <> []) bs.
Proof.
  intros Hm. apply List.Forall_impl. intros b Hb Hnil.
  rewrite Hnil in Hb. simpl in Hb. lia.
Qed.

(** Whatever the integer bound, [createBatches] loses, repeats and reorders
    nothing: the payments of the batches, concatenated, are the input list;
    the indices are 0, 1, 2, ...; and no batch is empty. *)
Theorem createBatches_keeps_everything
    (m : Z) (instructions : list PaymentInstruction) :
  concat (map payments (createBatches instructions m)) = instructions
  /\ map transactionIndex (createBatches instructions m)
     = map Z.of_nat (seq 0 (length (createBatches instructions m)))
  /\ Forall (fun b => payments b <> []) (createBatches instructions m).
Proof.
  unfold createBatches. destruct (Z.le_gt_cases 1 m) as [Hm|Hm].
  - destruct (inv_fold m instructions [] initial Hm (inv_initial m Hm))
      as [Hi Hs Hf Ho Hc].
    simpl in Hc. set (st := fold_left (step m) instructions initial) in *.
    destruct (Nat.ltb_spec 0 (length (currentBatch st))) as [Hpos|Hzero].
    + split; [|split].
      * rewrite map_app, concat_app. simpl. now rewrite app_nil_r.
      * now apply indices_snoc.
      * apply Forall_app. split; [now apply (nonempty_of_full m)|].
        constructor; [|constructor]. simpl. intros Hnil. rewrite Hnil in Hpos.
        simpl in Hpos. lia.
    + assert (Hcur : currentBatch st = [])
        by (destruct (currentBatch st); simpl in *; [reflexivity | lia]).
      rewrite Hcur, app_nil_r in Hc.
      split; [exact Hc|]. split; [exact Hs|]. now apply (nonempty_of_full m).
  - assert (H0 : inv1 [] initial) by (split; reflexivity).
    destruct (inv1_fold m instructions [] initial ltac:(lia) H0) as [Hi Hs Ho Hx].
    simpl in Hs. rewrite Ho. simpl.
    split; [|split].
    + rewrite Hs. apply concat_singletons.
    + exact Hx.
    + now apply (nonempty_of_singletons _ instructions).
Qed.

Lemma sizes_of_full m (bs : list Batch) :
  Forall (fun b => Z.of_nat (length (payments b)) = m) bs ->
  sizes bs = repeat m (length bs).
Proof. induction 1 as [|b bs Hb _ IH]; simpl; [reflexivity|]. now rewrite Hb, IH. Qed.

(** For a bound [m >= 1] and [n] instructions, the batches have [m] payments
    each, but for a last batch of [n mod m] payments when [m] does not
    divide [n]. *)
Theorem createBatches_sizes (m : Z) (instructions : list PaymentInstruction) :
  1 <= m ->
  sizes (createBatches instructions m)
  = repeat m (Z.to_nat (Z.of_nat (length instructions) / m))
    ++ (if Z.of_nat (length instructions) mod m =? 0 then []
        else [Z.of_nat (length instructions) mod m]).
Proof.
  intros Hm.
  pose proof (inv_fold m instructions [] initial Hm (inv_initial m Hm)) as Hinv.
  pose proof (length_walked m instructions _ Hinv) as Hn.
  destruct Hinv as [Hi Hs Hf Ho Hc]. unfold createBatches.
  set (st := fold_left (step m) instructions initial) in *.
  set (q := Z.of_nat (length (batches st))) in *.
  set (r := Z.of_nat (length (currentBatch st))) in *.
  assert (Hq : Z.of_nat (length instructions) / m = q).
  { symmetry. apply Z.div_unique with (r := r); lia. }
  assert (Hr : Z.of_nat (length instructions) mod m = r).
  { symmetry. apply Z.mod_unique with (q := q); lia. }
  rewrite Hq, Hr. unfold q. rewrite Nat2Z.id.
  destruct (Nat.ltb_spec 0 (length (currentBatch st))) as [Hpos|Hzero].
  - destruct (Z.eqb_spec r 0) as [H0|_]; [lia|].
    unfold sizes. rewrite map_app. fold (sizes (batches st)).
    now rewrite (sizes_of_full m).
  - destruct (Z.eqb_spec r 0) as [_|H0]; [|lia].
    now rewrite app_nil_r, (sizes_of_full m).
Qed.

Lemma createBatches_sizes_witness :
  sizes (createBatches
           [Mock.pay Mock.alice "1"; Mock.pay Mock.bob "2"; Mock.pay Mock.alice "3";
            Mock.pay Mock.bob "4"; Mock.pay Mock.alice "5"] 2)
  = [2; 2; 1].
Proof.
  apply (createBatches_sizes 2
           [Mock.pay Mock.alice "1"; Mock.pay Mock.bob "2"; Mock.pay Mock.alice "3";
            Mock.pay Mock.bob "4"; Mock.pay Mock.alice "5"]).
  lia.
Defined.

Lemma reindex_reindex j k b : reindex j (reindex k b) = reindex (k + j) b.
Proof. unfold reindex. simpl. f_equal. lia. Qed.

(** The loop started with some batches already closed and the next index
    [j] does what it does from the start, [j] indices later. *)
Lemma fold_step_shift m l : forall done cur j,
  fold_left (step m) l {| batches := done; currentBatch := cur; nextIndex := j |}
  = {| batches :=
         done ++ map (reindex j)
                   (batches (fold_left (step m) l
                      {| batches := []; currentBatch := cur; nextIndex := 0 |}));
       currentBatch :=
         currentBatch (fold_left (step m) l
                         {| batches := []; currentBatch := cur; nextIndex := 0 |});
       nextIndex :=
         nextIndex (fold_left (step m) l
                      {| batches := []; currentBatch := cur; nextIndex := 0 |}) + j |}.
Proof.
  induction l as [|a l IH]; intros done cur j.
  - simpl. now rewrite app_nil_r.
  - simpl fold_left. unfold step at 2 4 6 8. simpl.
    destruct (Z.of_nat (length (cur ++ [a])) >=? m).
    + rewrite (IH (done ++ _) [] (j + 1)).
      rewrite (IH [ _ ] [] 1). simpl.
      rewrite map_map, <- app_assoc. simpl. f_equal; [|lia].
      f_equal. f_equal.
      apply map_ext. intros b. rewrite reindex_reindex. f_equal. lia.
    + now rewrite (IH done (cur ++ [a]) j).
Qed.

(** Batching is stable under appending: when the first list fills [k]
    batches exactly, the batches of the two lists together are those of the
    first list followed by those of the second, numbered from [k] on. *)
Theorem createBatches_app
    (m k : Z) (first second : list PaymentInstruction) :
  1 <= m ->
  Z.of_nat (length first) = k * m ->
  createBatches (first ++ second) m
  = createBatches first m ++ map (reindex k) (createBatches second m).
Proof.
  intros Hm Hk.
  pose proof (inv_fold m first [] initial Hm (inv_initial m Hm)) as Hinv.
  pose proof (length_walked m first _ Hinv) as Hn.
  destruct Hinv as [Hi _ _ Ho _].
  unfold createBatches. rewrite fold_left_app.
  destruct (fold_left (step m) first initial) as [done cur j] eqn:Hfirst.
  simpl in *.
  assert (Hcur : cur = []).
  { destruct cur; [reflexivity|]. exfalso. simpl in *.
    destruct (Z.le_gt_cases (k - Z.of_nat (length done)) 0); nia. }
  subst cur. simpl in Hn.
  assert (Hj : j = k) by nia. subst j k. simpl.
  rewrite fold_step_shift. fold initial. simpl.
  destruct (0 <? length (currentBatch (fold_left (step m) second initial)))%nat.
  - rewrite map_app, app_assoc. simpl. f_equal.
  - reflexivity.
Qed.

Lemma createBatches_app_witness :
  createBatches ([Mock.pay Mock.alice "1"; Mock.pay Mock.bob "2"]
                 ++ [Mock.pay Mock.alice "3"]) 2
  = createBatches [Mock.pay Mock.alice "1"; Mock.pay Mock.bob "2"] 2
    ++ map (reindex 1) (createBatches [Mock.pay Mock.alice "3"] 2).
Proof.
  apply (createBatches_app 2 1 [Mock.pay Mock.alice "1"; Mock.pay Mock.bob "2"]
           [Mock.pay Mock.alice "3"]).
  - lia.
  - reflexivity.
Defined.

End BatchShapes.

(** ** [getBatchSummary]: the breakdown and the total *)

Section Breakdowns.
Import Batcher Spec Notions.

(** The breakdown maps an asset string to the number of instructions that
    carry exactly this string, and has no entry for any other string. *)
Theorem assetBreakdown_counts (instructions : list PaymentInstruction) (k : string) :
  assetBreakdown (getBatchSummary instructions) !! k
  = if (occurrences k instructions =? 0)%nat then None
    else Some (occurrences k instructions).
Proof.
  unfold getBatchSummary. simpl. rewrite assetCount_fold. simpl.
  rewrite lookup_empty. now destruct (occurrences k instructions).
Qed.

Lemma countTotal_comm (z1 z2 y : nat) :
  (z1 + (z2 + y))%nat = (z2 + (z1 + y))%nat.
Proof. lia. Qed.

Lemma countTotal_tally t a :
  countTotal (assetCount (tally t a)) = S (countTotal (assetCount t)).
Proof.
  unfold countTotal, tally. simpl.
  destruct (assetCount t !! asset a) as [v|] eqn:Hk; simpl.
  - rewrite <- insert_delete_eq.
    rewrite map_fold_insert_L;
      [|intros; apply countTotal_comm | apply lookup_delete_eq].
    rewrite (map_fold_delete_L _ _ (asset a) v (assetCount t));
      [lia | intros; apply countTotal_comm | exact Hk].
  - rewrite map_fold_insert_L; [lia | intros; apply countTotal_comm | exact Hk].
Qed.

Lemma countTotal_fold l : forall t,
  countTotal (assetCount (fold_left tally l t))
  = (countTotal (assetCount t) + length l)%nat.
Proof.
  induction l as [|a l IH]; intros t; simpl; [lia|].
  rewrite IH, countTotal_tally. lia.
Qed.

(** The counts of the breakdown add up to the recipient count. *)
Theorem assetBreakdown_total (instructions : list PaymentInstruction) :
  countTotal (assetBreakdown (getBatchSummary instructions))
  = recipientCount (getBatchSummary instructions).
Proof.
  unfold getBatchSummary. simpl. rewrite countTotal_fold.
  unfold countTotal. simpl. now rewrite map_fold_empty.
Qed.

Lemma add_nan_l x : Num.add S754_nan x = S754_nan.
Proof. reflexivity. Qed.

Lemma add_nan_r x : Num.add x S754_nan = S754_nan.
Proof. now destruct x. Qed.

Lemma fold_add_nan xs : fold_left Num.add xs S754_nan = S754_nan.
Proof. induction xs as [|x xs IH]; simpl; [reflexivity|]. exact IH. Qed.

Lemma fold_add_reaches_nan xs : forall acc,
  In S754_nan xs -> fold_left Num.add xs acc = S754_nan.
Proof.
  induction xs as [|x xs IH]; intros acc Hin; [destruct Hin|].
  simpl. destruct Hin as [->|Hin].
  - rewrite add_nan_r. apply fold_add_nan.
  - now apply IH.
Qed.

(** One amount that [parseFloat] cannot read turns the total into NaN:
    [getBatchSummary] adds without looking. *)
Theorem getBatchSummary_total_nan (instructions : list PaymentInstruction) :
  (exists i, In i instructions /\ Num.parseFloat (amount i) = S754_nan) ->
  totalAmount (getBatchSummary instructions) = "NaN".
Proof.
  intros (i & Hin & Hnan). unfold getBatchSummary. simpl.
  rewrite total_fold. simpl.
  rewrite fold_add_reaches_nan; [reflexivity|].
  rewrite <- Hnan. now do 2 apply in_map.
Qed.

Lemma getBatchSummary_total_nan_witness :
  totalAmount (getBatchSummary [Mock.pay Mock.alice "100"; Mock.pay Mock.bob "ten"])
  = "NaN".
Proof.
  apply (getBatchSummary_total_nan [Mock.pay Mock.alice "100"; Mock.pay Mock.bob "ten"]).
  exists (Mock.pay Mock.bob "ten"). split; [right; left; reflexivity | reflexivity].
Defined.

End Breakdowns.

(** ** [parseCSV]: rows, cells and errors *)

Section CsvRows.
Import JS Parser Spec Notions.

Lemma parseRows_rows header rows : forall i acc l,
  parseRows (column header "address") (column header "amount")
            (column header "asset") rows i acc = Ok l ->
  Forall (fun r => needed header <= Z.of_nat (length (cells r)))
         (List.filter (fun r => negb (isBlank r)) rows)
  /\ l = acc ++ map (instructionAt header)
                    (List.filter (fun r => negb (isBlank r)) rows).
Proof.
  induction rows as [|row rows IH]; intros i acc l; simpl.
  - intros [= <-]. split; [constructor | now rewrite app_nil_r].
  - fold (isBlank row). destruct (isBlank row); simpl.
    + apply IH.
    + destruct (Z.ltb_spec (Z.of_nat (length (map trim (split "," (trim row)))))
                  (Z.max (Z.max (column header "address") (column header "amount"))
                         (column header "asset") + 1)) as [Hlt|Hge];
        [discriminate|].
      intros E. apply IH in E. destruct E as [Hw ->]. split.
      * constructor; [exact Hge | exact Hw].
      * now rewrite <- app_assoc.
Qed.

Lemma parseRows_wide header rows : forall i acc,
  Forall (fun r => needed header <= Z.of_nat (length (cells r)))
         (List.filter (fun r => negb (isBlank r)) rows) ->
  parseRows (column header "address") (column header "amount")
            (column header "asset") rows i acc
  = Ok (acc ++ map (instructionAt header)
                   (List.filter (fun r => negb (isBlank r)) rows)).
Proof.
  induction rows as [|row rows IH]; intros i acc; simpl.
  - intros _. now rewrite app_nil_r.
  - fold (isBlank row). destruct (isBlank row); simpl.
    + apply IH.
    + intros Hw. inversion Hw as [|? ? Hrow Hrest]; subst.
      destruct (Z.ltb_spec (Z.of_nat (length (map trim (split "," (trim row)))))
                  (Z.max (Z.max (column header "address") (column header "amount"))
                         (column header "asset") + 1)) as [Hlt|Hge].
      * unfold needed, cells in Hrow. lia.
      * rewrite (IH _ _ Hrest), <- app_assoc. reflexivity.
Qed.

Lemma parseCSV_rows (content : string) (l : list PaymentInstruction) :
  parseCSV content = Ok l ->
  l = map (instructionAt (nth 0 (split newline (trim content)) EmptyString))
          (List.filter (fun r => negb (isBlank r))
                       (tl (split newline (trim content)))).
Proof.
  unfold parseCSV.
  destruct (length _ <? 2)%nat; [discriminate|].
  destruct (_ || _); [discriminate|].
  destruct (parseRows _ _ _ _ _ _) as [instructions|e] eqn:Hrows; [|discriminate].
  destruct (length instructions =? 0)%nat; [discriminate|].
  intros [= <-]. apply (parseRows_rows _ _ _ _ _ Hrows).
Qed.

(** [parseCSV] returns a list exactly when the trimmed text has a header
    line with the three columns and at least one non-blank line after it,
    and every non-blank line has a cell for each of the three columns. The
    list is then, in order, one instruction per non-blank line: its fields
    are the trimmed cells at the positions the header gives to address,
    amount and asset. A cell is not looked at any further: it may be
    empty. *)
Theorem parseCSV_accepts (content : string) (l : list PaymentInstruction) :
  parseCSV content = Ok l
  <-> let lines := split newline (trim content) in
      let header := nth 0 lines EmptyString in
      let rows := List.filter (fun r => negb (isBlank r)) (tl lines) in
      (2 <= length lines)%nat
      /\ column header "address" <> -1
      /\ column header "amount" <> -1
      /\ column header "asset" <> -1
      /\ Forall (fun r => needed header <= Z.of_nat (length (cells r))) rows
      /\ rows <> []
      /\ l = map (instructionAt header) rows.
Proof.
  cbv zeta. unfold parseCSV.
  fold (column (nth 0 (split newline (trim content)) EmptyString) "address").
  fold (column (nth 0 (split newline (trim content)) EmptyString) "amount").
  fold (column (nth 0 (split newline (trim content)) EmptyString) "asset").
  set (lines := split newline (trim content)).
  set (header := nth 0 lines EmptyString).
  destruct (Nat.ltb_spec (length lines) 2) as [Hlen|Hlen].
  { split; [discriminate | intros [Hl _]; lia]. }
  destruct (Z.eqb_spec (column header "address") (-1)) as [Ha|Ha]; simpl.
  { split; [discriminate | tauto]. }
  destruct (Z.eqb_spec (column header "amount") (-1)) as [Hm|Hm]; simpl.
  { split; [discriminate | tauto]. }
  destruct (Z.eqb_spec (column header "asset") (-1)) as [Hs|Hs]; simpl.
  { split; [discriminate | tauto]. }
  destruct (parseRows _ _ _ _ _ _) as [instructions|e] eqn:Hrows.
  - apply parseRows_rows in Hrows. destruct Hrows as [Hw Hl]. simpl in Hl.
    destruct (Nat.eqb_spec (length instructions) 0) as [Hz|Hz].
    + split; [discriminate|]. intros (_ & _ & _ & _ & _ & Hne & _).
      subst instructions. rewrite length_map in Hz.
      apply length_zero_iff_nil in Hz. contradiction.
    + split.
      * intros [= <-]. repeat (split; [assumption|]). split; [|exact Hl].
        intros Hnil. rewrite Hnil in Hl. subst instructions. now apply Hz.
      * intros (_ & _ & _ & _ & _ & _ & ->). now rewrite Hl.
  - split; [discriminate|]. intros (_ & _ & _ & _ & Hw & _).
    rewrite (parseRows_wide _ _ _ _ Hw) in Hrows. discriminate.
Qed.

Lemma parseRows_short header pre row post : forall i acc,
  Forall (fun r => isBlank r = true
                   \/ needed header <= Z.of_nat (length (cells r))) pre ->
  isBlank row = false ->
  Z.of_nat (length (cells row)) < needed header ->
  parseRows (column header "address") (column header "amount")
            (column header "asset") (pre ++ row :: post) i acc
  = Throw (Error (insufficientColumns (i + Z.of_nat (length pre) + 1))).
Proof.
  induction pre as [|r pre IH]; intros i acc Hpre Hrow Hshort.
  - simpl. unfold isBlank in Hrow. rewrite Hrow.
    unfold needed, cells in Hshort.
    destruct (Z.ltb_spec (Z.of_nat (length (map trim (split "," (trim row)))))
                (Z.max (Z.max (column header "address") (column header "amount"))
                       (column header "asset") + 1)) as [Hlt|Hge]; [|lia].
    do 3 f_equal. lia.
  - inversion Hpre as [|? ? Hr Hrest]; subst.
    change ((r :: pre) ++ row :: post) with (r :: (pre ++ row :: post)).
    cbn [parseRows].
    replace (i + Z.of_nat (length (r :: pre)) + 1)
      with ((i + 1) + Z.of_nat (length pre) + 1) by (simpl length; lia).
    destruct (String.length (trim r) =? 0)%nat eqn:Hblank.
    + now apply IH.
    + destruct Hr as [Hr|Hr]; [unfold isBlank in Hr; congruence|].
      unfold needed, cells in Hr.
      destruct (Z.ltb_spec (Z.of_nat (length (map trim (split "," (trim r)))))
                  (Z.max (Z.max (column header "address") (column header "amount"))
                         (column header "asset") + 1)) as [Hlt|Hge]; [lia|].
      now apply IH.
Qed.

(** The first non-blank line with too few cells stops [parseCSV]: the
    error names the line by its position in the trimmed text, counted from
    1 with the header, and nothing is returned, whatever follows. *)
Theorem parseCSV_first_short_row
    (content header : string) (pre : list string) (row : string)
    (post : list string) :
  split newline (trim content) = header :: pre ++ row :: post ->
  column header "address" <> -1 ->
  column header "amount" <> -1 ->
  column header "asset" <> -1 ->
  Forall (fun r => isBlank r = true
                   \/ needed header <= Z.of_nat (length (cells r))) pre ->
  isBlank row = false ->
  Z.of_nat (length (cells row)) < needed header ->
  parseCSV content
  = Throw (Error (insufficientColumns (Z.of_nat (length pre) + 2))).
Proof.
  intros Hlines Ha Hm Hs Hpre Hrow Hshort. unfold parseCSV.
  rewrite Hlines. cbn [nth tl].
  fold (column header "address") (column header "amount") (column header "asset").
  replace (length (header :: pre ++ row :: post) <? 2)%nat with false
    by (symmetry; apply Nat.ltb_ge; simpl; rewrite length_app; simpl; lia).
  destruct (Z.eqb_spec (column header "address") (-1)); [contradiction|].
  destruct (Z.eqb_spec (column header "amount") (-1)); [contradiction|].
  destruct (Z.eqb_spec (column header "asset") (-1)); [contradiction|].
  cbn [orb].
  rewrite (parseRows_short header pre row post 1 [] Hpre Hrow Hshort).
  do 3 f_equal. lia.
Qed.

Lemma parseCSV_first_short_row_witness :
  parseCSV ("address,amount,asset" +:+ lineFeed +:+ "GA,1,XLM" +:+ lineFeed
            +:+ lineFeed +:+ "GB,5" +:+ lineFeed +:+ "GC,2,XLM")
  = Throw (Error "Row 4 has insufficient columns").
Proof.
  apply (parseCSV_first_short_row _ "address,amount,asset"
           ["GA,1,XLM"; EmptyString] "GB,5" ["GC,2,XLM"]).
  - reflexivity.
  - vm_compute. discriminate.
  - vm_compute. discriminate.
  - vm_compute. discriminate.
  - constructor; [right; vm_compute; discriminate|].
    constructor; [left; reflexivity | constructor].
  - reflexivity.
  - reflexivity.
Defined.

(** *** Trimming *)

Lemma trimStart_idem s : trimStart (trimStart s) = trimStart s.
Proof.
  induction s as [|c s IH]; cbn [trimStart trimEnd contains String.length]; [reflexivity|].
  destruct (isWhiteSpace c) eqn:Hc; [exact IH|]. cbn [trimStart trimEnd contains String.length]. now rewrite Hc.
Qed.

Lemma trimEnd_idem s : trimEnd (trimEnd s) = trimEnd s.
Proof.
  induction s as [|c s IH]; cbn [trimStart trimEnd contains String.length]; [reflexivity|].
  destruct (trimEnd s) as [|k ks] eqn:Hk.
  - destruct (isWhiteSpace c) eqn:Hc; cbn [trimStart trimEnd contains String.length]; [reflexivity|]. now rewrite Hc.
  - change (trimEnd (String c (String k ks))) with
      (match trimEnd (String k ks) with
       | EmptyString => if isWhiteSpace c then EmptyString else String c EmptyString
       | kept => String c kept
       end).
    now rewrite IH.
Qed.

Lemma trim_comm s : trimEnd (trimStart s) = trimStart (trimEnd s).
Proof.
  induction s as [|c s IH]; [reflexivity|].
  destruct (isWhiteSpace c) eqn:Hc.
  - cbn [trimStart trimEnd contains String.length]. rewrite Hc, IH.
    destruct (trimEnd s) as [|k ks]; cbn [trimStart]; rewrite ?Hc; reflexivity.
  - change (trimStart (String c s)) with
      (if isWhiteSpace c then trimStart s else String c s).
    rewrite Hc. cbn [trimStart trimEnd contains String.length].
    destruct (trimEnd s) as [|k ks]; rewrite ?Hc; cbn [trimStart]; rewrite ?Hc; reflexivity.
Qed.

Lemma trim_idem s : trim (trim s) = trim s.
Proof.
  unfold trim. now rewrite trim_comm, trimStart_idem, trimEnd_idem.
Qed.

Lemma trimStart_of_trim s : trim s = s -> trimStart s = s.
Proof. intros E. rewrite <- E at 1. unfold trim. rewrite trimStart_idem. exact E. Qed.

Lemma trimEnd_of_trim s : trim s = s -> trimEnd s = s.
Proof.
  intros E. rewrite <- E at 1. unfold trim.
  rewrite trim_comm, trimEnd_idem. exact E.
Qed.

Lemma trim_of_both s : trimStart s = s -> trimEnd s = s -> trim s = s.
Proof. intros Hs He. unfold trim. now rewrite He. Qed.

Lemma length_trimStart s : (String.length (trimStart s) <= String.length s)%nat.
Proof.
  induction s as [|c s IH]; cbn [trimStart trimEnd contains String.length]; [lia|].
  destruct (isWhiteSpace c); cbn [trimStart trimEnd contains String.length]; lia.
Qed.

Lemma trimStart_head c s :
  trimStart (String c s) = String c s -> isWhiteSpace c = false.
Proof.
  cbn [trimStart trimEnd contains String.length]. destruct (isWhiteSpace c); [|reflexivity].
  intros E. pose proof (length_trimStart s) as Hl. rewrite E in Hl.
  simpl in Hl. lia.
Qed.

Lemma trimStart_app x y :
  trimStart x = x -> x <> EmptyString -> trimStart (x +:+ y) = x +:+ y.
Proof.
  destruct x as [|c x]; [congruence|]. intros E _.
  apply trimStart_head in E.
  change (String c x +:+ y) with (String c (x +:+ y)).
  cbn [trimStart]. now rewrite E.
Qed.

Lemma trimEnd_app x y :
  trimEnd y = y -> y <> EmptyString -> trimEnd (x +:+ y) = x +:+ y.
Proof.
  intros E Hy. induction x as [|c x IH]; [exact E|].
  change (String c x +:+ y) with (String c (x +:+ y)).
  cbn [trimStart trimEnd contains String.length]. rewrite IH. destruct (x +:+ y) eqn:Hxy; [|reflexivity].
  destruct x; [|discriminate]. change (EmptyString +:+ y) with y in Hxy. congruence.
Qed.

(** White space around the text does not count: [parseCSV] reads a text
    and its trimmed form alike. *)
Theorem parseCSV_ignores_outer_space (content : string) :
  parseCSV (trim content) = parseCSV content.
Proof. unfold parseCSV. now rewrite trim_idem. Qed.

(** *** Characters that survive trimming and splitting *)

Lemma contains_trimStart c s :
  contains c s = false -> contains c (trimStart s) = false.
Proof.
  induction s as [|a s IH]; cbn [trimStart trimEnd contains String.length]; [reflexivity|].
  destruct (isWhiteSpace a); cbn [trimStart trimEnd contains String.length]; [|tauto].
  intros E. apply orb_false_iff in E. now apply IH.
Qed.

Lemma contains_trimEnd c s :
  contains c s = false -> contains c (trimEnd s) = false.
Proof.
  induction s as [|a s IH]; cbn [trimStart trimEnd contains String.length]; [reflexivity|].
  intros E. apply orb_false_iff in E. destruct E as [Ea Es].
  specialize (IH Es).
  destruct (trimEnd s) as [|k ks].
  - destruct (isWhiteSpace a); cbn [trimStart trimEnd contains String.length]; [reflexivity|]. now rewrite Ea.
  - change (contains c (String a (String k ks)))
      with (Ascii.eqb a c || contains c (String k ks)).
    now rewrite Ea, IH.
Qed.

Lemma contains_trim c s : contains c s = false -> contains c (trim s) = false.
Proof. intros E. unfold trim. now apply contains_trimStart, contains_trimEnd. Qed.

Lemma contains_app c x y :
  contains c (x +:+ y) = contains c x || contains c y.
Proof.
  induction x as [|a x IH]; [reflexivity|].
  change (String a x +:+ y) with (String a (x +:+ y)).
  cbn [trimStart trimEnd contains String.length]. now rewrite IH, orb_assoc.
Qed.

(** No field of [split] carries the separator, nor a character the string
    does not carry. *)
Lemma split_fields sep d s :
  d = sep \/ contains d s = false ->
  Forall (fun f => contains d f = false) (split sep s).
Proof.
  induction s as [|a s IH]; cbn [split contains]; intros Hd.
  - now repeat constructor.
  - destruct (Ascii.eqb a sep) eqn:Ha.
    + constructor; [reflexivity|]. apply IH.
      destruct Hd as [->|Hd]; [now left|].
      apply orb_false_iff in Hd. now right.
    + assert (Hrest : d = sep \/ contains d s = false).
      { destruct Hd as [->|Hd]; [now left|].
        apply orb_false_iff in Hd. now right. }
      assert (Had : Ascii.eqb a d = false).
      { destruct Hd as [->|Hd]; [exact Ha|].
        now apply orb_false_iff in Hd. }
      specialize (IH Hrest).
      destruct (split sep s) as [|field fields].
      * constructor; [|constructor]. cbn [split contains]. now rewrite Had.
      * inversion IH as [|? ? Hf Hfs]; subst.
        constructor; [|exact Hfs]. cbn [split contains]. now rewrite Had, Hf.
Qed.

Lemma clean_empty : clean EmptyString.
Proof. now repeat split. Qed.

Lemma clean_cells row :
  contains newline row = false -> Forall clean (cells row).
Proof.
  intros Hrow. unfold cells. apply List.Forall_map.
  pose proof (split_fields "," "," (trim row) (or_introl eq_refl)) as Hcomma.
  pose proof (split_fields "," newline (trim row)
                (or_intror (contains_trim _ _ Hrow))) as Hnl.
  revert Hcomma Hnl. generalize (split "," (trim row)) as fields.
  induction fields as [|f fields IH]; intros Hc Hn; constructor.
  - inversion Hc; inversion Hn; subst.
    split; [apply trim_idem|]. split; now apply contains_trim.
  - inversion Hc; inversion Hn; subst. now apply IH.
Qed.

Lemma clean_cell k row : contains newline row = false -> clean (cell k row).
Proof.
  intros Hrow. unfold cell.
  pose proof (clean_cells row Hrow) as Hall.
  revert Hall. generalize (cells row) as parts. generalize (Z.to_nat k) as n.
  induction n as [|n IH]; intros [|p parts] Hall; simpl;
    try apply clean_empty; inversion Hall; subst; auto.
Qed.

(** Every field [parseCSV] returns is trimmed and carries neither a comma
    nor a line feed: a cell cannot be quoted. *)
Theorem parseCSV_fields_clean (content : string) (l : list PaymentInstruction) :
  parseCSV content = Ok l ->
  Forall (fun i => clean (address i) /\ clean (amount i) /\ clean (asset i)) l.
Proof.
  intros E. apply parseCSV_rows in E. subst l.
  apply List.Forall_map.
  pose proof (split_fields newline newline (trim content) (or_introl eq_refl)) as Hl.
  revert Hl. generalize (split newline (trim content)) as lines.
  intros lines Hl.
  assert (Hrows : Forall (fun f => contains newline f = false) (tl lines)).
  { destruct lines; [constructor|]. now inversion Hl. }
  induction (tl lines) as [|row rows IH]; simpl; [constructor|].
  inversion Hrows; subst.
  destruct (negb (isBlank row)); [constructor|]; auto.
  simpl. repeat split; now apply clean_cell.
Qed.

Lemma parseCSV_fields_clean_witness :
  parseCSV ("address, amount, asset" +:+ lineFeed +:+ " GBBD47UZ , 100 , XLM ")
  = Ok [ {| address := "GBBD47UZ"; amount := "100"; asset := "XLM" |} ]
  /\ Forall (fun i => clean (address i) /\ clean (amount i) /\ clean (asset i))
            [ {| address := "GBBD47UZ"; amount := "100"; asset := "XLM" |} ].
Proof.
  split; [reflexivity|].
  apply (parseCSV_fields_clean
           ("address, amount, asset" +:+ lineFeed +:+ " GBBD47UZ , 100 , XLM ")).
  reflexivity.
Defined.

(** *** Plain CSV text is read back *)

Lemma append_assoc x y z : (x +:+ y) +:+ z = x +:+ (y +:+ z).
Proof.
  induction x as [|c x IH]; [reflexivity|].
  change (String c x +:+ y) with (String c (x +:+ y)).
  change (String c (x +:+ y) +:+ z) with (String c ((x +:+ y) +:+ z)).
  now rewrite IH.
Qed.

Lemma trimEnd_comma s : trimEnd s = s -> trimEnd ("," +:+ s) = "," +:+ s.
Proof.
  intros E. change ("," +:+ s) with (String "," s).
  cbn [trimEnd]. rewrite E. now destruct s.
Qed.

Lemma trim_csvLine i :
  clean (address i) -> clean (amount i) -> clean (asset i) ->
  trim (csvLine i) = csvLine i.
Proof.
  intros [Ha _] [_ _] [Hs _]. unfold csvLine. apply trim_of_both.
  - destruct (address i) as [|c a] eqn:E; [reflexivity|].
    apply trimStart_app; [|discriminate]. now apply trimStart_of_trim.
  - rewrite <- (append_assoc "," (amount i) ("," +:+ asset i)).
    rewrite <- (append_assoc (address i) ("," +:+ amount i) ("," +:+ asset i)).
    apply trimEnd_app; [|discriminate].
    apply trimEnd_comma. now apply trimEnd_of_trim.
Qed.

Lemma split_csvLine i :
  clean (address i) -> clean (amount i) -> clean (asset i) ->
  split "," (csvLine i) = [address i; amount i; asset i].
Proof.
  intros (_ & Ha & _) (_ & Hm & _) (_ & Hs & _). unfold csvLine.
  change ("," +:+ amount i +:+ "," +:+ asset i)
    with (String "," (amount i +:+ "," +:+ asset i)).
  rewrite (split_first_field _ _ _ Ha).
  change ("," +:+ asset i) with (String "," (asset i)).
  rewrite (split_first_field _ _ _ Hm).
  now rewrite (split_no_sep _ _ Hs).
Qed.

Lemma csvLine_no_newline i :
  clean (address i) -> clean (amount i) -> clean (asset i) ->
  contains newline (csvLine i) = false.
Proof.
  intros (_ & _ & Ha) (_ & _ & Hm) (_ & _ & Hs). unfold csvLine.
  rewrite !contains_app, Ha, Hm, Hs. reflexivity.
Qed.

Lemma csvLine_not_empty i : csvLine i <> EmptyString.
Proof.
  unfold csvLine. destruct (address i); discriminate.
Qed.

Lemma split_join lines :
  lines <> [] ->
  Forall (fun r => contains newline r = false) lines ->
  split newline (join lineFeed lines) = lines.
Proof.
  intros Hne Hall. induction Hall as [|r rest Hr Hrest IH]; [contradiction|].
  destruct rest as [|r' rest].
  - simpl. now apply split_no_sep.
  - change (join lineFeed (r :: r' :: rest))
      with (r +:+ String newline (join lineFeed (r' :: rest))).
    rewrite (split_first_field _ _ _ Hr). f_equal. now apply IH.
Qed.

Lemma trimEnd_join lines :
  lines <> [] ->
  Forall (fun r => trimEnd r = r /\ r <> EmptyString) lines ->
  trimEnd (join lineFeed lines) = join lineFeed lines
  /\ join lineFeed lines <> EmptyString.
Proof.
  intros Hne Hall. induction Hall as [|r rest [Hr Hr'] Hrest IH]; [contradiction|].
  destruct rest as [|r' rest].
  - simpl. now split.
  - change (join lineFeed (r :: r' :: rest))
      with (r +:+ (lineFeed +:+ join lineFeed (r' :: rest))).
    destruct IH as [IH IH']; [discriminate|].
    rewrite <- append_assoc. split.
    + now apply trimEnd_app.
    + destruct r; [contradiction | discriminate].
Qed.

Lemma parseRows_csvLines l : forall i acc,
  Forall (fun p => clean (address p) /\ clean (amount p) /\ clean (asset p)) l ->
  parseRows 0 1 2 (map csvLine l) i acc = Ok (acc ++ l).
Proof.
  induction l as [|p l IH]; intros i acc Hall; simpl.
  - now rewrite app_nil_r.
  - inversion Hall as [|? ? (Ha & Hm & Hs) Hrest]; subst.
    rewrite (trim_csvLine p Ha Hm Hs), (split_csvLine p Ha Hm Hs).
    destruct (String.length (csvLine p)) eqn:Hlen.
    { pose proof (csvLine_not_empty p). now destruct (csvLine p). }
    cbn [Nat.eqb map length nth Z.to_nat Pos.to_nat Pos.iter_op Nat.add].
    destruct Ha as [-> _], Hm as [-> _], Hs as [-> _].
    replace (Z.of_nat 3 <? Z.max (Z.max 0 1) 2 + 1) with false by reflexivity.
    rewrite (IH _ _ Hrest), <- app_assoc. now destruct p.
Qed.

(** A non-empty list of instructions with clean fields, written as plain
    CSV (the header line, then address, amount and asset of each
    instruction on a line of its own), is read back by [parseCSV] as it
    is. *)
Theorem parseCSV_reads_back (l : list PaymentInstruction) :
  l <> [] ->
  Forall (fun p => clean (address p) /\ clean (amount p) /\ clean (asset p)) l ->
  parseCSV (csvText l) = Ok l.
Proof.
  intros Hne Hall.
  assert (Hlines : map csvLine l <> []) by (destruct l; [contradiction | discriminate]).
  assert (Htrim : trim (csvText l) = csvText l).
  { apply trim_of_both; [reflexivity|]. unfold csvText.
    rewrite <- append_assoc.
    destruct (trimEnd_join (map csvLine l) Hlines) as [E E'].
    - apply List.Forall_map. eapply List.Forall_impl; [|exact Hall].
      intros p (Ha & Hm & Hs). split; [|apply csvLine_not_empty].
      apply trimEnd_of_trim. now apply trim_csvLine.
    - now apply trimEnd_app. }
  assert (Hsplit : split newline (csvText l)
                   = "address,amount,asset" :: map csvLine l).
  { unfold csvText.
    change (lineFeed +:+ join lineFeed (map csvLine l))
      with (String newline (join lineFeed (map csvLine l))).
    rewrite split_first_field by reflexivity. f_equal.
    apply split_join; [exact Hlines|].
    apply List.Forall_map. eapply List.Forall_impl; [|exact Hall].
    intros p (Ha & Hm & Hs). now apply csvLine_no_newline. }
  unfold parseCSV. rewrite Htrim, Hsplit.
  replace (length ("address,amount,asset" :: map csvLine l) <? 2)%nat with false
    by (symmetry; apply Nat.ltb_ge; destruct l; [contradiction | simpl; lia]).
  cbn [nth tl].
  change (indexOf (map (fun h => toLowerCase (trim h))
                       (split "," "address,amount,asset")) "address") with 0.
  change (indexOf (map (fun h => toLowerCase (trim h))
                       (split "," "address,amount,asset")) "amount") with 1.
  change (indexOf (map (fun h => toLowerCase (trim h))
                       (split "," "address,amount,asset")) "asset") with 2.
  cbn [Z.eqb orb].
  rewrite (parseRows_csvLines l 1 [] Hall). cbn [app].
  destruct l; [contradiction | reflexivity].
Qed.

Lemma parseCSV_reads_back_witness :
  parseCSV (csvText [ {| address := "GA"; amount := "1.5"; asset := "XLM" |};
                      {| address := "GB"; amount := EmptyString;
                         asset := "USDC:GC" |} ])
  = Ok [ {| address := "GA"; amount := "1.5"; asset := "XLM" |};
         {| address := "GB"; amount := EmptyString; asset := "USDC:GC" |} ].
Proof.
  apply parseCSV_reads_back; [discriminate|].
  repeat constructor.
Defined.

End CsvRows.

(** ** [parseJSON] *)

Section JsonFacts.
Import JS Json.

Variable JSON_parse : string -> Value + string.
Variable nullRead : string.

(** [parseJSON] returns a list exactly when the text parses to an array, or
    to an object whose own property [payments] is an array; the list is
    that array, empty or not, with elements of any kind. *)
Theorem parseJSON_accepts (content : string) (items : list Value) :
  parseJSON JSON_parse nullRead content = Ok items
  <-> JSON_parse content = inl (Arr items)
      \/ exists properties,
           JSON_parse content = inl (Obj properties)
           /\ properties !! "payments" = Some (Arr items).
Proof.
  unfold parseJSON.
  destruct (JSON_parse content) as [data|message].
  2:{ split; [discriminate | intros [?|(? & ? & _)]; discriminate]. }
  destruct data as [| | | |l|properties]; simpl;
    try (split; [discriminate | intros [?|(? & ? & _)]; discriminate]).
  - split.
    + intros [= ->]. now left.
    + intros [[= ->]|(? & ? & _)]; [reflexivity | discriminate].
  - destruct (properties !! "payments") as [[| | | |l|]|] eqn:Hp;
      try (split; [discriminate|];
           intros [?|(? & [= <-] & E)]; [discriminate|];
           rewrite Hp in E; discriminate).
    split.
    + intros [= ->]. right. eauto.
    + intros [?|(? & [= <-] & E)]; [discriminate|].
      rewrite Hp in E. now injection E as ->.
Qed.

(** Whatever goes wrong inside [parseJSON] leaves it as an [Error] whose
    message is [Failed to parse JSON: ] followed by the message of the
    syntax error, of the failed read from [null], or of its own complaint
    about a missing array: nothing else escapes, and the fallback message
    for a thrown non-error is never used. *)
Theorem parseJSON_errors (content : string) :
  match parseJSON JSON_parse nullRead content with
  | Ok _ => True
  | Throw e =>
      exists message,
        e = Error ("Failed to parse JSON: " +:+ message)
        /\ (JSON_parse content = inr message
            \/ (JSON_parse content = inl Null /\ message = nullRead)
            \/ (message = expectedArray
                /\ exists data, JSON_parse content = inl data /\ data <> Null
                   /\ forall items, data <> Arr items))
  end.
Proof.
  unfold parseJSON.
  destruct (JSON_parse content) as [data|message].
  2:{ exists message. split; [reflexivity | now left]. }
  destruct data as [| | | |l|properties]; simpl; try exact I.
  - exists nullRead. split; [reflexivity|]. right. now left.
  - eexists. split; [reflexivity|]. right. right. split; [reflexivity|].
    eexists. split; [reflexivity|]. split; [discriminate|]. discriminate.
  - eexists. split; [reflexivity|]. right. right. split; [reflexivity|].
    eexists. split; [reflexivity|]. split; [discriminate|]. discriminate.
  - eexists. split; [reflexivity|]. right. right. split; [reflexivity|].
    eexists. split; [reflexivity|]. split; [discriminate|]. discriminate.
  - destruct (properties !! "payments") as [[| | | |l|]|]; try exact I;
      (eexists; split; [reflexivity|]; right; right; split; [reflexivity|];
       eexists; split; [reflexivity|]; split; discriminate).
Qed.

End JsonFacts.

(** ** The service: transactions, submissions and the report *)

Section ServiceShapes.
Import JS Service Notions.

Context {L : Type} `{LedgerClient L}.
Variable validate : PaymentInstruction -> Validator.ValidationResult.
Variable this : Config.

Lemma addOperations_ok payments : forall ops ops',
  addOperations payments ops = Ok ops' ->
  ops' = ops ++ map operationOf payments.
Proof.
  induction payments as [|p payments IH]; intros ops ops'; simpl.
  - intros [= <-]. now rewrite app_nil_r.
  - fold (operationOf p). destruct (operationThrows (operationOf p)); [discriminate|].
    intros E. apply IH in E. now rewrite E, <- app_assoc.
Qed.

Lemma addOperations_throw payments : forall ops e,
  addOperations payments ops = Throw e ->
  exists p, In p payments /\ operationThrows (operationOf p) = Some e.
Proof.
  induction payments as [|p payments IH]; intros ops e; simpl; [discriminate|].
  fold (operationOf p). destruct (operationThrows (operationOf p)) as [e'|] eqn:Hop.
  - intros [= <-]. exists p. split; [now left | exact Hop].
  - intros E. apply IH in E. destruct E as (q & Hq & Hthrow).
    exists q. split; [now right | exact Hthrow].
Qed.



(** One turn of the batch loop, in full: whether a transaction went out,
    which one, and what was pushed. *)
Lemma processBatch_shape st batch w :
  exists st' w' evs,
    processBatch this st batch w = (Ok st', w')
    /\ trace w' = trace w ++ evs
    /\ ((evs = []
         /\ sdkThrows this batch (sequenceNumber st)
         /\ exists msg, st' = fold_left (pushFailed msg) batch st)
        \/ (exists r,
              evs = [Submitted (sign (publicKey this)
                                     (transactionOf this batch (sequenceNumber st))) r]
              /\ match r with
                 | Ok resp =>
                     if successful resp
                     then st' = bump (fold_left (pushSuccess (hash resp)) batch st)
                     else exists msg, st' = fold_left (pushFailed msg) batch st
                 | Throw _ => exists msg, st' = fold_left (pushFailed msg) batch st
                 end)).
Proof.
  unfold processBatch, buildTransaction, submitTransaction, serverSubmit.
  unfold tryCatch, bind, check, lift, ret, sdkThrows.
  destruct (builderThrows _ _) as [e|] eqn:Hb.
  { eexists _, _, []. rewrite app_nil_r. split; [reflexivity|].
    split; [reflexivity|]. left. split; [reflexivity|]. split; [|eauto].
    left. discriminate. }
  destruct (addOperations batch []) as [ops|e] eqn:Hops.
  2:{ apply addOperations_throw in Hops. destruct Hops as (p & Hp & Hthrow).
      eexists _, _, []. rewrite app_nil_r. split; [reflexivity|].
      split; [reflexivity|]. left. split; [reflexivity|]. split; [|eauto].
      right. left. exists p. split; [exact Hp|]. rewrite Hthrow. discriminate. }
  apply addOperations_ok in Hops. simpl in Hops. subst ops.
  fold (transactionOf this batch (sequenceNumber st)).
  destruct (buildThrows _) as [e|] eqn:Hbuild.
  { eexists _, _, []. rewrite app_nil_r. split; [reflexivity|].
    split; [reflexivity|]. left. split; [reflexivity|]. split; [|eauto].
    right. right. left. discriminate. }
  destruct (signThrows _) as [e|] eqn:Hsign.
  { eexists _, _, []. rewrite app_nil_r. split; [reflexivity|].
    split; [reflexivity|]. left. split; [reflexivity|]. split; [|eauto].
    right. right. right. discriminate. }
  destruct (submit (ledger w) _) as [[resp|e] l'] eqn:Hsub.
  - destruct (successful resp) eqn:Hacc.
    + eexists _, _, [Submitted _ (Ok resp)].
      split; [reflexivity|]. split; [reflexivity|]. right.
      eexists. split; [reflexivity|]. cbn beta iota. now rewrite Hacc.
    + eexists _, _, [Submitted _ (Ok resp)].
      split; [reflexivity|]. split; [reflexivity|]. right.
      eexists. split; [reflexivity|]. cbn beta iota. rewrite Hacc. eauto.
  - eexists _, _, [Submitted _ (Throw e)].
    split; [reflexivity|]. split; [reflexivity|]. right.
    eexists. split; [reflexivity|]. cbn beta iota. eauto.
Qed.

Lemma forOf_turns batches : forall st w,
  exists st' w' evs,
    forOf (processBatch this) batches st w = (Ok st', w')
    /\ trace w' = trace w ++ evs
    /\ turns this st batches evs st'.
Proof.
  induction batches as [|batch batches IH]; intros st w; simpl.
  - exists st, w, []. rewrite app_nil_r. repeat split. constructor.
  - destruct (processBatch_shape st batch w) as (st1 & w1 & evs1 & E1 & T1 & Hturn).
    destruct (IH st1 w1) as (st2 & w2 & evs2 & E2 & T2 & Hrest).
    exists st2, w2, (evs1 ++ evs2). unfold bind at 1. rewrite E1, E2.
    split; [reflexivity|]. split; [now rewrite T2, T1, app_assoc|].
    destruct Hturn as [(-> & Hthrow & msg & ->)|(r & -> & Hr)].
    + now apply turns_unsent with msg.
    + destruct r as [resp|e].
      * destruct (successful resp) eqn:Hacc.
        -- subst st1. now apply turns_accepted.
        -- destruct Hr as [msg ->]. now apply turns_refused with msg.
      * destruct Hr as [msg ->]. now apply turns_refused with msg.
Qed.

(** A run of [submitBatch] on valid instructions with the account loaded:
    the report, the batches and the turns of the loop. *)
Lemma submitBatch_turns instructions w loaded l1 :
  (forall i, In i instructions -> Validator.valid (validate i) = true) ->
  loadAccount (ledger w) (publicKey this) = (Ok loaded, l1) ->
  exists r w' batches evs st,
    submitBatch validate this instructions w = (Ok r, w')
    /\ createPaymentBatches validate this instructions = Ok batches
    /\ concat batches = instructions
    /\ trace w' = trace w ++ LoadedAccount (publicKey this) :: evs
    /\ turns this (start loaded) batches evs st
    /\ results r = pushed st
    /\ totalTransactions r = length batches
    /\ Summary.successful (summary r) = successCount st
    /\ Summary.failed (summary r) = failCount st.
Proof.
  intros Hv Hload.
  destruct (createPaymentBatches_valid validate this instructions Hv)
    as (batches & Hcpb & Hcat).
  unfold submitBatch, runBatches, newDate, serverLoadAccount, bind, lift, ret.
  rewrite Hload, Hcpb.
  destruct (forOf_turns batches (start loaded)
              {| ledger := l1; trace := trace w ++ [LoadedAccount (publicKey this)] |})
    as (st & w' & evs & E & T & Hturns).
  rewrite E. eexists _, _, batches, evs, st.
  split; [reflexivity|]. split; [reflexivity|]. split; [exact Hcat|].
  split; [rewrite T; simpl; now rewrite <- app_assoc|].
  split; [exact Hturns|]. repeat split.
Qed.

(** *** What the report says about each transaction *)

Lemma pushed_failed msg batch st :
  pushed (fold_left (pushFailed msg) batch st)
  = pushed st ++ map (failedResult msg) batch.
Proof. now rewrite fold_pushFailed. Qed.

Lemma pushed_success h batch st :
  pushed (bump (fold_left (pushSuccess h) batch st))
  = pushed st ++ map (successResult h) batch.
Proof. now rewrite fold_pushSuccess. Qed.

Lemma sequence_failed msg batch st :
  sequenceNumber (fold_left (pushFailed msg) batch st) = sequenceNumber st.
Proof. now rewrite fold_pushFailed. Qed.

Lemma sequence_success h batch st :
  sequenceNumber (bump (fold_left (pushSuccess h) batch st)) = sequenceNumber st + 1.
Proof. now rewrite fold_pushSuccess. Qed.

Lemma turns_blocks st batches evs st' :
  turns this st batches evs st' ->
  exists blocks,
    pushed st' = pushed st ++ concat blocks /\ Forall2 block batches blocks.
Proof.
  induction 1 as [st|st batch msg rest evs st' _ _ IH
                  |st batch resp rest evs st' _ _ IH
                  |st batch r msg rest evs st' _ _ IH].
  - exists []. split; [now rewrite app_nil_r | constructor].
  - destruct IH as (blocks & Hp & Hb). rewrite pushed_failed in Hp.
    exists (map (failedResult msg) batch :: blocks). simpl.
    split; [now rewrite Hp, app_assoc|]. constructor; [|exact Hb]. right. eauto.
  - destruct IH as (blocks & Hp & Hb). rewrite pushed_success in Hp.
    exists (map (successResult (hash resp)) batch :: blocks). simpl.
    split; [now rewrite Hp, app_assoc|]. constructor; [|exact Hb]. left. eauto.
  - destruct IH as (blocks & Hp & Hb). rewrite pushed_failed in Hp.
    exists (map (failedResult msg) batch :: blocks). simpl.
    split; [now rewrite Hp, app_assoc|]. constructor; [|exact Hb]. right. eauto.
Qed.

(** The report is all or nothing per transaction: the results are the
    blocks of the batches, in order, and the instructions of one batch are
    all reported paid with the same hash and no error message, or all
    reported failed with the same error message and no hash. *)
Theorem submitBatch_reports_by_transaction
    (instructions : list PaymentInstruction) (w : World L) (loaded : Z) (l1 : L) :
  (forall i, In i instructions -> Validator.valid (validate i) = true) ->
  loadAccount (ledger w) (publicKey this) = (Ok loaded, l1) ->
  exists r w' batches blocks,
    submitBatch validate this instructions w = (Ok r, w')
    /\ createPaymentBatches validate this instructions = Ok batches
    /\ totalTransactions r = length batches
    /\ results r = concat blocks
    /\ Forall2 block batches blocks.
Proof.
  intros Hv Hload.
  destruct (submitBatch_turns instructions w loaded l1 Hv Hload)
    as (r & w' & batches & evs & st & E & Hcpb & _ & _ & Hturns & Hr & Hn & _).
  destruct (turns_blocks _ _ _ _ Hturns) as (blocks & Hp & Hb).
  exists r, w', batches, blocks.
  split; [exact E|]. split; [exact Hcpb|]. split; [exact Hn|].
  split; [now rewrite Hr, Hp | exact Hb].
Qed.

(** *** What the ledger sees *)





Lemma acceptedIn_cons_accepted tx resp evs :
  successful resp = true ->
  acceptedIn (Submitted tx (Ok resp) :: evs) = S (acceptedIn evs).
Proof. intros Hacc. unfold acceptedIn. simpl. now rewrite Hacc. Qed.

Lemma acceptedIn_cons_refused tx r evs :
  match r with Ok resp => successful resp = false | Throw _ => True end ->
  acceptedIn (Submitted tx r :: evs) = acceptedIn evs.
Proof.
  intros Hr. unfold acceptedIn. simpl. destruct r as [resp|e]; [|reflexivity].
  now rewrite Hr.
Qed.

Lemma turns_sequence st batches evs st' :
  turns this st batches evs st' ->
  forall pre tx r post,
    evs = pre ++ Submitted tx r :: post ->
    sequence tx = showZ (sequenceNumber st + Z.of_nat (acceptedIn pre)).
Proof.
  induction 1 as [st|st batch msg rest evs st' _ _ IH
                  |st batch resp rest evs st' Hacc _ IH
                  |st batch r0 msg rest evs st' Hr _ IH];
    intros pre tx r post Hsplit.
  - now destruct pre.
  - rewrite (IH _ _ _ _ Hsplit), sequence_failed. reflexivity.
  - destruct pre as [|ev pre]; simpl in Hsplit.
    + injection Hsplit as <- _ _. simpl. unfold acceptedIn. simpl.
      now rewrite Z.add_0_r.
    + injection Hsplit as <- Hsplit.
      rewrite (IH _ _ _ _ Hsplit), sequence_success.
      rewrite (acceptedIn_cons_accepted _ _ _ Hacc). f_equal. lia.
  - destruct pre as [|ev pre]; simpl in Hsplit.
    + injection Hsplit as <- _ _. simpl. unfold acceptedIn. simpl.
      now rewrite Z.add_0_r.
    + injection Hsplit as <- Hsplit.
      rewrite (IH _ _ _ _ Hsplit), sequence_failed.
      now rewrite (acceptedIn_cons_refused _ _ _ Hr).
Qed.

(** Every submitted transaction is built on the sequence number that was
    loaded plus the number of submissions the ledger accepted before it: a
    transaction that was refused, or never sent, uses none up. *)
Theorem submitted_sequence_numbers
    (instructions : list PaymentInstruction) (w : World L) (loaded : Z) (l1 : L) :
  (forall i, In i instructions -> Validator.valid (validate i) = true) ->
  loadAccount (ledger w) (publicKey this) = (Ok loaded, l1) ->
  exists r w' evs,
    submitBatch validate this instructions w = (Ok r, w')
    /\ trace w' = trace w ++ LoadedAccount (publicKey this) :: evs
    /\ forall pre tx outcome post,
         evs = pre ++ Submitted tx outcome :: post ->
         sequence tx = showZ (loaded + Z.of_nat (acceptedIn pre)).
Proof.
  intros Hv Hload.
  destruct (submitBatch_turns instructions w loaded l1 Hv Hload)
    as (r & w' & batches & evs & st & E & _ & _ & T & Hturns & _).
  exists r, w', evs. split; [exact E|]. split; [exact T|].
  intros pre tx outcome post Hsplit.
  apply (turns_sequence _ _ _ _ Hturns _ _ _ _ Hsplit).
Qed.

Lemma turns_once st batches evs st' :
  (forall batch seq, ~ sdkThrows this batch seq) ->
  turns this st batches evs st' ->
  map operations (submitted evs) = map (map operationOf) batches.
Proof.
  intros Hquiet.
  induction 1 as [st|st batch msg rest evs st' Hthrow _ IH
                  |st batch resp rest evs st' _ _ IH
                  |st batch r msg rest evs st' _ _ IH].
  - reflexivity.
  - now apply Hquiet in Hthrow.
  - simpl. now rewrite IH.
  - simpl. now rewrite IH.
Qed.

Lemma concat_map_map {A B} (f : A -> B) (ls : list (list A)) :
  concat (map (map f) ls) = map f (concat ls).
Proof.
  induction ls as [|l ls IH]; simpl; [reflexivity|]. now rewrite IH, map_app.
Qed.

(** When no call of the SDK throws, every batch is sent to the ledger
    exactly once, in order and whatever the ledger answered before: the
    operations of the submitted transactions, put end to end, are the
    payments of the instructions, each one once. *)
Theorem every_batch_is_submitted_once
    (instructions : list PaymentInstruction) (w : World L) (loaded : Z) (l1 : L) :
  (forall pk seq, builderThrows pk seq = None) ->
  (forall op, operationThrows op = None) ->
  (forall tx, buildThrows tx = None) ->
  (forall tx, signThrows tx = None) ->
  (forall i, In i instructions -> Validator.valid (validate i) = true) ->
  loadAccount (ledger w) (publicKey this) = (Ok loaded, l1) ->
  exists r w' evs,
    submitBatch validate this instructions w = (Ok r, w')
    /\ trace w' = trace w ++ LoadedAccount (publicKey this) :: evs
    /\ length (submitted evs) = totalTransactions r
    /\ concat (map operations (submitted evs)) = map operationOf instructions.
Proof.
  intros Hb Hop Hbuild Hsign Hv Hload.
  destruct (submitBatch_turns instructions w loaded l1 Hv Hload)
    as (r & w' & batches & evs & st & E & _ & Hcat & T & Hturns & _ & Hn & _).
  assert (Hquiet : forall batch seq, ~ sdkThrows this batch seq).
  { intros batch seq [Ht|[(p & _ & Ht)|[Ht|Ht]]]; apply Ht; auto. }
  pose proof (turns_once _ _ _ _ Hquiet Hturns) as Hops.
  exists r, w', evs. split; [exact E|]. split; [exact T|]. split.
  - rewrite Hn, <- (length_map operations), Hops. apply length_map.
  - now rewrite Hops, concat_map_map, Hcat.
Qed.

Lemma filter_success h batch :
  List.filter isSuccess (map (successResult h) batch) = map (successResult h) batch.
Proof. induction batch as [|i batch IH]; simpl; [reflexivity|]. now rewrite IH. Qed.

Lemma filter_failed msg batch :
  List.filter isSuccess (map (failedResult msg) batch) = [].
Proof. induction batch as [|i batch IH]; simpl; [reflexivity|]. exact IH. Qed.

Lemma turns_ledger st batches evs st' :
  turns this st batches evs st' ->
  exists news,
    pushed st' = pushed st ++ news
    /\ map operationOf (map instructionOf (List.filter isSuccess news))
       = concat (map operations (accepted evs)).
Proof.
  induction 1 as [st|st batch msg rest evs st' _ _ IH
                  |st batch resp rest evs st' Hacc _ IH
                  |st batch r msg rest evs st' Hr _ IH].
  - exists []. split; [now rewrite app_nil_r | reflexivity].
  - destruct IH as (news & Hp & Hl). rewrite pushed_failed in Hp.
    exists (map (failedResult msg) batch ++ news).
    split; [now rewrite Hp, app_assoc|].
    now rewrite List.filter_app, filter_failed.
  - destruct IH as (news & Hp & Hl). rewrite pushed_success in Hp.
    exists (map (successResult (hash resp)) batch ++ news).
    split; [now rewrite Hp, app_assoc|].
    rewrite List.filter_app, filter_success, !map_app, Hl.
    rewrite map_instructionOf_success. simpl. now rewrite Hacc.
  - destruct IH as (news & Hp & Hl). rewrite pushed_failed in Hp.
    exists (map (failedResult msg) batch ++ news).
    split; [now rewrite Hp, app_assoc|].
    rewrite List.filter_app, filter_failed. simpl.
    destruct r as [resp|e]; [rewrite Hr|]; exact Hl.
Qed.

(** The report tells what the ledger did: the payments reported as paid
    are, in order, exactly the operations of the transactions the ledger
    accepted. A payment reported as failed was in no accepted transaction,
    and none that the ledger accepted is missing from the report. *)
Theorem report_matches_ledger
    (instructions : list PaymentInstruction) (w : World L) (loaded : Z) (l1 : L) :
  (forall i, In i instructions -> Validator.valid (validate i) = true) ->
  loadAccount (ledger w) (publicKey this) = (Ok loaded, l1) ->
  exists r w' evs,
    submitBatch validate this instructions w = (Ok r, w')
    /\ trace w' = trace w ++ LoadedAccount (publicKey this) :: evs
    /\ map operationOf (map instructionOf (List.filter isSuccess (results r)))
       = concat (map operations (accepted evs)).
Proof.
  intros Hv Hload.
  destruct (submitBatch_turns instructions w loaded l1 Hv Hload)
    as (r & w' & batches & evs & st & E & _ & _ & T & Hturns & Hr & _).
  destruct (turns_ledger _ _ _ _ Hturns) as (news & Hp & Hl).
  exists r, w', evs. split; [exact E|]. split; [exact T|].
  rewrite Hr, Hp. exact Hl.
Qed.

(** The empty list is not refused: with the account loaded, [submitBatch]
    returns a report without results, with no transaction and the total 0,
    stamped with the time before the load, and submits nothing. *)
Theorem submitBatch_empty (w : World L) (loaded : Z) (l1 : L) :
  loadAccount (ledger w) (publicKey this) = (Ok loaded, l1) ->
  submitBatch validate this [] w
  = (Ok {| totalRecipients := 0;
           totalAmount := "0";
           totalTransactions := 0;
           network := configNetwork this;
           timestamp := clock (ledger w);
           results := [];
           summary := {| Summary.successful := 0; Summary.failed := 0 |} |},
     {| ledger := l1; trace := trace w ++ [LoadedAccount (publicKey this)] |}).
Proof.
  intros Hload.
  unfold submitBatch, runBatches, newDate, serverLoadAccount, bind, lift, ret.
  rewrite Hload. reflexivity.
Qed.

(** When the account cannot be loaded, [submitBatch] throws what
    [loadAccount] threw, as it is: nothing is validated, nothing is
    submitted and there is no report. *)
Theorem submitBatch_load_failure
    (instructions : list PaymentInstruction) (w : World L) (e : Thrown) (l1 : L) :
  loadAccount (ledger w) (publicKey this) = (Throw e, l1) ->
  submitBatch validate this instructions w
  = (Throw e, {| ledger := l1;
                 trace := trace w ++ [LoadedAccount (publicKey this)] |}).
Proof.
  intros Hload.
  unfold submitBatch, runBatches, newDate, serverLoadAccount, bind, lift, ret.
  now rewrite Hload.
Qed.

End ServiceShapes.

(** *** Runs on the scripted ledger and on the unreachable one *)

Section ServiceRuns.
Import JS Service Mock Offline Notions.

Local Abbreviation V := Validator.validatePaymentInstruction.
Local Abbreviation three := [pay alice "100"; pay bob "50"; pay alice "75"].
Local Abbreviation ledger7 := {| accountSequence := 7; script := [false; true] |}.

Lemma submitBatch_reports_by_transaction_witness :
  exists r w' batches blocks,
    submitBatch V (service 2) three (world 7 [false; true]) = (Ok r, w')
    /\ createPaymentBatches V (service 2) three = Ok batches
    /\ totalTransactions r = length batches
    /\ results r = concat blocks
    /\ Forall2 block batches blocks.
Proof.
  apply (submitBatch_reports_by_transaction V (service 2) three
           (world 7 [false; true]) 7 ledger7).
  - intros i [<-|[<-|[<-|[]]]]; reflexivity.
  - reflexivity.
Defined.


Lemma submitted_sequence_numbers_witness :
  exists r w' evs,
    submitBatch V (service 2) three (world 7 [false; true]) = (Ok r, w')
    /\ trace w' = trace (world 7 [false; true])
                  ++ LoadedAccount (publicKey (service 2)) :: evs
    /\ forall pre tx outcome post,
         evs = pre ++ Submitted tx outcome :: post ->
         sequence tx = showZ (7 + Z.of_nat (acceptedIn pre)).
Proof.
  apply (submitted_sequence_numbers V (service 2) three
           (world 7 [false; true]) 7 ledger7).
  - intros i [<-|[<-|[<-|[]]]]; reflexivity.
  - reflexivity.
Defined.

Lemma every_batch_is_submitted_once_witness :
  exists r w' evs,
    submitBatch V (service 2) three (world 7 [false; true]) = (Ok r, w')
    /\ trace w' = trace (world 7 [false; true])
                  ++ LoadedAccount (publicKey (service 2)) :: evs
    /\ length (submitted evs) = totalTransactions r
    /\ concat (map operations (submitted evs)) = map operationOf three.
Proof.
  apply (every_batch_is_submitted_once V (service 2) three
           (world 7 [false; true]) 7 ledger7).
  - reflexivity.
  - reflexivity.
  - reflexivity.
  - reflexivity.
  - intros i [<-|[<-|[<-|[]]]]; reflexivity.
  - reflexivity.
Defined.

Lemma report_matches_ledger_witness :
  exists r w' evs,
    submitBatch V (service 2) three (world 7 [false; true]) = (Ok r, w')
    /\ trace w' = trace (world 7 [false; true])
                  ++ LoadedAccount (publicKey (service 2)) :: evs
    /\ map operationOf (map instructionOf (List.filter isSuccess (results r)))
       = concat (map operations (accepted evs)).
Proof.
  apply (report_matches_ledger V (service 2) three
           (world 7 [false; true]) 7 ledger7).
  - intros i [<-|[<-|[<-|[]]]]; reflexivity.
  - reflexivity.
Defined.

Lemma submitBatch_empty_witness :
  submitBatch V (service 2) [] (world 7 [true])
  = (Ok {| totalRecipients := 0;
           totalAmount := "0";
           totalTransactions := 0;
           network := testnet;
           timestamp := "2024-01-01T00:00:00.000Z";
           results := [];
           summary := {| Summary.successful := 0; Summary.failed := 0 |} |},
     {| ledger := {| accountSequence := 7; script := [true] |};
        trace := [LoadedAccount signer] |}).
Proof.
  exact (submitBatch_empty V (service 2) (world 7 [true]) 7
           {| accountSequence := 7; script := [true] |} eq_refl).
Defined.

Lemma submitBatch_load_failure_witness :
  submitBatch V (service 2) three {| ledger := tt; trace := [] |}
  = (Throw (Error "Network Error"),
     {| ledger := tt; trace := [LoadedAccount (publicKey (service 2))] |}).
Proof.
  apply (submitBatch_load_failure V (service 2) three
           {| ledger := tt; trace := [] |} (Error "Network Error") tt).
  reflexivity.
Defined.

(** The failed batch of the scripted run is reported failed, the accepted
    one paid, and the accepted transaction reuses the sequence number the
    refused one did not use up. *)
Example refused_then_accepted :
  exists r w',
    submitBatch V (service 2) three (world 7 [false; true]) = (Ok r, w')
    /\ map PaymentResult.status (results r) = [failed; failed; success]
    /\ map sequence (submitted (trace w')) = ["7"; "7"]
    /\ map operations (accepted (trace w')) = [[operationOf (pay alice "75")]].
Proof. eexists _, _. split; [reflexivity|]. repeat split. Qed.

End ServiceRuns.

(** ** [parseAsset]: two fields at most *)

Section AssetFields.
Import JS Batcher Spec.

(** The code and the issuer [parseAsset] returns never hold a colon, and
    whatever follows a second colon is dropped: asset strings that differ
    only there give the same asset. *)
Theorem parseAsset_two_fields (s : string) :
  contains ":" (code (parseAsset s)) = false
  /\ (forall i, issuer (parseAsset s) = issuer_string i -> contains ":" i = false)
  /\ (forall c i rest,
        contains ":" c = false -> contains ":" i = false ->
        s = c +:+ ":" +:+ i +:+ ":" +:+ rest ->
        parseAsset s = {| code := c; issuer := issuer_string i |}).
Proof.
  unfold parseAsset.
  destruct (String.eqb_spec s "XLM") as [->|Hne].
  - split; [reflexivity|]. split; [discriminate|].
    intros c i rest _ _ Hs.
    assert (Hc : contains ":" "XLM" = true)
      by (rewrite Hs; apply (contains_sep_app ":" c _)).
    discriminate Hc.
  - pose proof (split_fields ":" ":" s (or_introl eq_refl)) as Hf.
    split; [|split].
    + destruct (split ":" s) as [|c [|i r]]; [reflexivity| |];
        now inversion Hf.
    + intros i0. destruct (split ":" s) as [|c [|i r]]; try discriminate.
      simpl. intros [= <-]. inversion Hf as [|? ? _ Hr]; subst.
      now inversion Hr.
    + intros c i rest Hc Hi ->. clear Hf.
      change (c +:+ ":" +:+ i +:+ ":" +:+ rest)
        with (c +:+ String ":" (i +:+ String ":" rest)).
      rewrite (split_first_field ":" c _ Hc), (split_first_field ":" i _ Hi).
      reflexivity.
Qed.

End AssetFields.
